(** * Fill-in estimation for sparse Cholesky (RXMesh, apps/NDReorder)

    A shallow embedding of
      - [is_unique_permutation]   (include/rxmesh/matrix/permute_util.h),
      - [exportToPlainText] and the two overloads of [count_nnz_fillin]
        (apps/NDReorder/count_nnz_fillin.h),
      - [Context]: [unpack_edge_dir], [init], [release] and the getters
        (include/rxmesh/context.h),
    the properties of them that the specification states, and further
    properties read off the code.

    Conventions.  A C++ [int] is a [Z] kept in range by [wrap_int], written
    at every arithmetic operation of the source; [Eigen::Index] is 64 bits
    wide ([wrap_index]).  A [std::vector] is a [list] read and written by
    index; an access outside the vector is the fault [OutOfBounds].  Loops
    whose trip count the source does not bound carry a fuel, and running out
    of it is the fault [Diverged].

    What is not in the repository.  The numeric factorization
    ([Eigen::SimplicialLLT]) is a parameter [compute] of the oracle; where a
    property depends on what it returns, that is a hypothesis of the theorem
    ([computes_structural_factor]).  [Eigen::internal::permute_symm_to_fullsymm]
    is modelled from the specification.  The file system is a field of
    [world].  Device memory and the three calls of the CUDA runtime that
    [Context] makes are modelled in [MeshContext]; what the macro
    [CUDA_ERROR] does with an error is not, the model of a call stops
    there. *)

From stdpp Require Import base tactics numbers option list list_numbers sorting strings gmap.
From Stdlib Require Import ZArith Lia.

Local Open Scope Z_scope.

(** ** Machine integers *)

Definition INT_MAX : Z := 2147483647.
Definition INT_MIN : Z := -2147483648.

(** Two's complement normalisation of a 32-bit [int]. *)
Definition wrap_int (z : Z) : Z := (z + 2147483648) `mod` 4294967296 - 2147483648.

(** The same for the 64-bit [Eigen::Index] (a [std::ptrdiff_t]). *)
Definition wrap_index (z : Z) : Z :=
  (z + 9223372036854775808) `mod` 18446744073709551616 - 9223372036854775808.

(** ** Results of a run *)

Inductive fault : Set :=
| OutOfBounds     (* access outside a vector or an array *)
| Diverged        (* the fuel of a loop ran out *)
| AssertFailed    (* an [assert] of the source failed *)
| LengthError.    (* a vector of negative size was requested *)

Inductive result (A : Type) : Type :=
| Ok (a : A)
| Fault (f : fault).
Arguments Ok {A} a.
Arguments Fault {A} f.

#[global] Instance result_ret : MRet result := @Ok.
#[global] Instance result_bind : MBind result :=
  λ A B f m, match m with Ok a => f a | Fault e => Fault e end.

(** ** Vectors *)

(** [v[i]] *)
Definition vec_get {A} (v : list A) (i : Z) : result A :=
  if bool_decide (0 ≤ i) then
    match v !! Z.to_nat i with
    | Some x => Ok x
    | None => Fault OutOfBounds
    end
  else Fault OutOfBounds.

(** [v[i] = x] *)
Definition vec_set {A} (v : list A) (i : Z) (x : A) : result (list A) :=
  if bool_decide (0 ≤ i < Z.of_nat (length v)) then Ok (<[Z.to_nat i := x]> v)
  else Fault OutOfBounds.

(** [std::vector<int> v(size)]: [size] zeros. *)
Definition vec_make (size : Z) : result (list Z) :=
  if bool_decide (0 ≤ size) then Ok (replicate (Z.to_nat size) 0)
  else Fault LengthError.

(** [for (int i = lo; i < hi; ++i) body(i)] over a state [St]. *)
Fixpoint for_count {St} (k : nat) (i : Z) (body : Z → St → result St) (s : St)
  : result St :=
  match k with
  | O => Ok s
  | S k' => s' ← body i s; for_count k' (i + 1) body s'
  end.

Definition for_range {St} (lo hi : Z) (body : Z → St → result St) (s : St) : result St :=
  for_count (Z.to_nat (hi - lo)) lo body s.

(** ** The elimination-tree counter *)

Module EliminationTree.

(** [rxmesh::SparseMatrix<T>], as far as [count_nnz_fillin] reads it: the order
    [rows()] and the CSR arrays [row_ptr()] and [col_idx()]. *)
Record SparseMatrix : Type := {
  rows : Z;
  row_ptr : list Z;
  col_idx : list Z
}.

(** The working arrays of one call and the running counter. *)
Record etree : Type := {
  parent : list Z;
  nonZerosPerCol : list Z;
  tags : list Z;
  nnz : Z
}.

(** The body of the ancestor walk at node [c] in row [r], followed by the
    loop's increment [c = parent[c]]: the new state and the next node. *)
Definition visit (r c : Z) (s : etree) : result (etree * Z) :=
  p ← vec_get (parent s) c;
  parent1 ← (if bool_decide (p = -1) then vec_set (parent s) c r else Ok (parent s));
  k ← vec_get (nonZerosPerCol s) c;
  cols1 ← vec_set (nonZerosPerCol s) c (wrap_int (k + 1));
  tags1 ← vec_set (tags s) c r;
  c' ← vec_get parent1 c;
  Ok ({| parent := parent1; nonZerosPerCol := cols1; tags := tags1;
         nnz := wrap_int (nnz s + 1) |}, c').

(** [for (; tags[c] != r; c = parent[c]) { ... }] *)
Fixpoint walk (fuel : nat) (r c : Z) (s : etree) : result etree :=
  match fuel with
  | O => Fault Diverged
  | S fuel' =>
      t ← vec_get (tags s) c;
      if bool_decide (t = r) then Ok s
      else '(s1, c1) ← visit r c s; walk fuel' r c1 s1
  end.

(** The body of the loop over the stored entries of row [r]. *)
Definition entry (fuel : nat) (mat : SparseMatrix) (r i : Z) (s : etree) : result etree :=
  c ← vec_get (col_idx mat) i;
  if bool_decide (c < r) then walk fuel r c s else Ok s.

(** The three assignments that open the iteration of row [r]. *)
Definition init_row (r : Z) (s : etree) : result etree :=
  parent1 ← vec_set (parent s) r (-1);
  tags1 ← vec_set (tags s) r r;
  cols1 ← vec_set (nonZerosPerCol s) r 0;
  Ok {| parent := parent1; nonZerosPerCol := cols1; tags := tags1; nnz := nnz s |}.

(** The body of the loop over the rows. *)
Definition row (fuel : nat) (mat : SparseMatrix) (r : Z) (s : etree) : result etree :=
  s1 ← init_row r s;
  start ← vec_get (row_ptr mat) r;
  end_ ← vec_get (row_ptr mat) (r + 1);
  for_range start end_ (entry fuel mat r) s1.

(** The state before the first row. *)
Definition start_state (size : Z) : result etree :=
  v ← vec_make size;
  Ok {| parent := v; nonZerosPerCol := v; tags := v; nnz := 0 |}.

(** The sweep over all rows. *)
Definition sweep (fuel : nat) (mat : SparseMatrix) : result etree :=
  s0 ← start_state (rows mat);
  for_range 0 (rows mat) (row fuel mat) s0.

(** [count_nnz_fillin(const rxmesh::SparseMatrix<T>& mat)]; every ancestor
    walk may take [fuel] steps. *)
Definition count_nnz_fillin (fuel : nat) (mat : SparseMatrix) : result Z :=
  s ← sweep fuel mat;
  Ok (wrap_int (wrap_int (2 * nnz s) + rows mat)).

(** *** The sweep, one loop head at a time *)

(** The loop heads of [count_nnz_fillin]. *)
Inductive point : Set :=
| RowHead (r : Z)               (* at [r < size] *)
| EntryHead (r i end_ : Z)      (* at [i < end] *)
| WalkHead (r i end_ c : Z)     (* at [tags[c] != r] *)
| Returned.

(** From one loop head to the next. *)
Definition step (mat : SparseMatrix) (cfg : point * etree) : result (point * etree) :=
  match cfg.1 with
  | RowHead r =>
      if bool_decide (r < rows mat) then
        s1 ← init_row r cfg.2;
        start ← vec_get (row_ptr mat) r;
        end_ ← vec_get (row_ptr mat) (r + 1);
        Ok (EntryHead r start end_, s1)
      else Ok (Returned, cfg.2)
  | EntryHead r i end_ =>
      if bool_decide (i < end_) then
        c ← vec_get (col_idx mat) i;
        if bool_decide (c < r) then Ok (WalkHead r i end_ c, cfg.2)
        else Ok (EntryHead r (i + 1) end_, cfg.2)
      else Ok (RowHead (r + 1), cfg.2)
  | WalkHead r i end_ c =>
      t ← vec_get (tags cfg.2) c;
      if bool_decide (t = r) then Ok (EntryHead r (i + 1) end_, cfg.2)
      else '(s1, c1) ← visit r c cfg.2; Ok (WalkHead r i end_ c1, s1)
  | Returned => Ok cfg
  end.

End EliminationTree.


(** ** The permutation validator *)

Module Validator.

(** The integer type [T] of the template: its width and signedness. *)
Record int_type : Set := { it_bits : Z; it_signed : bool }.

Definition int32_t : int_type := {| it_bits := 32; it_signed := true |}.
Definition uint32_t : int_type := {| it_bits := 32; it_signed := false |}.
Definition uint16_t : int_type := {| it_bits := 16; it_signed := false |}.
Definition uint8_t : int_type := {| it_bits := 8; it_signed := false |}.

(** The largest value of [T]. *)
Definition it_max (T : int_type) : Z :=
  if it_signed T then 2 ^ (it_bits T - 1) - 1 else 2 ^ it_bits T - 1.

(** The conversion [T(z)] of an integer to [T]. *)
Definition cast (T : int_type) (z : Z) : Z :=
  if it_signed T
  then (z + 2 ^ (it_bits T - 1)) `mod` 2 ^ it_bits T - 2 ^ (it_bits T - 1)
  else z `mod` 2 ^ it_bits T.

(** The two arrays the function touches: the caller's, behind the pointer
    [h_permute], and the local vector [permute]. *)
Record memory : Type := {
  h_permute : list Z;
  permute : list Z
}.

(** [std::memcpy(dst.data(), src, n * sizeof(T))] *)
Definition memcpy (dst src : list Z) (n : Z) : result (list Z) :=
  if bool_decide (0 ≤ n ≤ Z.of_nat (length src) ∧ n ≤ Z.of_nat (length dst))
  then Ok (take (Z.to_nat n) src ++ drop (Z.to_nat n) dst)
  else Fault OutOfBounds.

(** [std::sort(first, last)]: the elements in ascending order. *)
Definition sort (l : list Z) : list Z := merge_sort Z.le l.

(** [for (T i = 0; i < T(permute.size()); ++i) if (i != permute[i]) return false;
    return true;] from the value [i] of the loop variable on. *)
Fixpoint check_from (T : int_type) (fuel : nat) (i : Z) (v : list Z) : result bool :=
  match fuel with
  | O => Fault Diverged
  | S fuel' =>
      if bool_decide (i < cast T (Z.of_nat (length v))) then
        x ← vec_get v i;
        if bool_decide (i ≠ x) then Ok false
        else check_from T fuel' (cast T (i + 1)) v
      else Ok true
  end.

(** [is_unique_permutation<T>(size, h_permute)]: the returned flag and the
    memory after the call. *)
Definition is_unique_permutation (T : int_type) (size : Z) (m : memory)
  : result (bool * memory) :=
  v0 ← vec_make size;
  v1 ← memcpy v0 (h_permute m) size;
  let m1 := {| h_permute := h_permute m; permute := sort v1 |} in
  b ← check_from T (S (length (permute m1))) 0 (permute m1);
  Ok (b, m1).

(** A call on the caller's array [a]. *)
Definition call (T : int_type) (size : Z) (a : list Z) : result (bool * memory) :=
  is_unique_permutation T size {| h_permute := a; permute := [] |}.

End Validator.

(** ** The factorization oracle *)

Module Oracle.

(** [Eigen::ComputationInfo] *)
Inductive ComputationInfo : Set :=
| Success | NumericalIssue | NoConvergence | InvalidInput.

#[global] Instance ComputationInfo_eq_dec : EqDecision ComputationInfo.
Proof. solve_decision. Defined.

(** What the function writes to [std::cerr] and to the log. *)
Inductive diagnostic : Set :=
| CannotOpen (filename : string)        (* "Error opening file: <filename>" *)
| CholeskyFailed (code : ComputationInfo).
    (* "post_chol_factorization_nnz(): Cholesky decomposition with reorder
       failed with code <code>" *)

Section Oracle.

(** The scalar type of the matrices ([float]). *)
Context {V : Type}.

(** An [Eigen::SparseMatrix]: its order and its stored entries
    (row, column, value) in the order its iterators traverse them.  In which
    order a matrix that Eigen has built holds its entries is Eigen's affair:
    what is proved below of such a matrix does not depend on it. *)
Record EigenMat : Type := {
  e_rows : Z;
  e_entries : list (Z * Z * V)
}.

Definition nonZeros (m : EigenMat) : Z := Z.of_nat (length (e_entries m)).

(** What the function reads back from the solver after [compute]. *)
Record SimplicialLLT : Type := {
  info : ComputationInfo;
  matrixL : EigenMat
}.

(** The file system, the diagnostic streams and the number of calls of the
    external factorization so far. *)
Record world : Type := {
  can_open : string → bool;
  files : gmap string (list (Z * Z * V));
  diagnostics : list diagnostic;
  factorizations : nat
}.

(** [exportToPlainText(mat, filename)]: one line [row+1 col+1 value] per
    stored entry, in traversal order; the file is truncated on opening.  A
    line is kept as the triple it is printed from: the text that [operator<<]
    writes for the value is not modelled. *)
Definition exportToPlainText (mat : EigenMat) (filename : string) (w : world) : world :=
  if can_open w filename then
    {| can_open := can_open w;
       files := <[filename := (λ '(r, c, v), (r + 1, c + 1, v)) <$> e_entries mat]> (files w);
       diagnostics := diagnostics w;
       factorizations := factorizations w |}
  else
    {| can_open := can_open w;
       files := files w;
       diagnostics := diagnostics w ++ [CannotOpen filename];
       factorizations := factorizations w |}.

(** [RXMESH_ERROR("... failed with code {}", code)] *)
Definition log_error (code : ComputationInfo) (w : world) : world :=
  {| can_open := can_open w;
     files := files w;
     diagnostics := diagnostics w ++ [CholeskyFailed code];
     factorizations := factorizations w |}.

(** The world after one call of [solver.compute]. *)
Definition factorized (w : world) : world :=
  {| can_open := can_open w;
     files := files w;
     diagnostics := diagnostics w;
     factorizations := S (factorizations w) |}.

(** [perm[i]], which must be an index of the destination. *)
Definition new_index (n : Z) (perm : list Z) (i : Z) : result Z :=
  p ← vec_get perm i;
  if bool_decide (0 ≤ p < n) then Ok p else Fault OutOfBounds.

(** The entries one stored entry of the source contributes. *)
Definition place (n : Z) (perm : list Z) (e : Z * Z * V) : result (list (Z * Z * V)) :=
  let '(r, c, v) := e in
  if bool_decide (c < r) then
    pr ← new_index n perm r; pc ← new_index n perm c;
    Ok [(pr, pc, v); (pc, pr, v)]
  else if bool_decide (c = r) then
    pr ← new_index n perm r;
    Ok [(pr, pr, v)]
  else Ok [].

Fixpoint place_all (n : Z) (perm : list Z) (es : list (Z * Z * V))
  : result (list (Z * Z * V)) :=
  match es with
  | [] => Ok []
  | e :: es' => l ← place n perm e; ls ← place_all n perm es'; Ok (l ++ ls)
  end.

(** Modelled from the spec: [Eigen::internal::permute_symm_to_fullsymm<Lower>],
    which is Eigen's and not in the repository.  Every stored entry [(r, c, v)]
    with [c ≤ r] is placed at [(perm[r], perm[c])] and at its mirror image,
    values preserved, an entry of the diagonal once.  The entries of the
    result are listed as they are placed; the order in which Eigen stores
    them is not modelled. *)
Definition permute_symm_to_fullsymm (mat : EigenMat) (perm : list Z) : result EigenMat :=
  es ← place_all (e_rows mat) perm (e_entries mat);
  Ok {| e_rows := e_rows mat; e_entries := es |}.

(** The caller's vector [h_permute] and the index vector of [perm]. *)
Record perm_state : Type := {
  h_permute : list Z;
  indices : list Z
}.

(** [perm.indices()[i] = h_permute[i]] *)
Definition copy_index (i : Z) (s : perm_state) : result perm_state :=
  x ← vec_get (h_permute s) i;
  ix ← vec_set (indices s) i x;
  Ok {| h_permute := h_permute s; indices := ix |}.

(** The external factorization: [solver.compute(permuted_mat)]. *)
Variable compute : EigenMat → SimplicialLLT.

(** [count_nnz_fillin(eigen_mat, h_permute, st)]: the returned integer, the
    caller's vector after the call and the world after the call.  [ndebug]
    tells whether [assert] is compiled out. *)
Definition count_nnz_fillin (ndebug : bool) (eigen_mat : EigenMat) (hp : list Z)
    (st : string) (w : world) : result (Z * list Z * world) :=
  if negb ndebug && negb (bool_decide (Z.of_nat (length hp) = e_rows eigen_mat))
  then Fault AssertFailed
  else
    ix ← vec_make (e_rows eigen_mat);
    s ← for_range 0 (e_rows eigen_mat) copy_index {| h_permute := hp; indices := ix |};
    permuted_mat ← permute_symm_to_fullsymm eigen_mat (indices s);
    let w1 := exportToPlainText permuted_mat (st +:+ ".txt") w in
    let solver := compute permuted_mat in
    let w2 := factorized w1 in
    if bool_decide (info solver ≠ Success) then
      Ok (-1, h_permute s, log_error (info solver) w2)
    else
      let lower_mat := matrixL solver in
      let lower_nnz := wrap_int (wrap_index (nonZeros lower_mat - e_rows lower_mat)) in
      Ok (wrap_int (wrap_index (wrap_int (2 * lower_nnz) + e_rows lower_mat)),
          h_permute s, w2).

End Oracle.

Arguments EigenMat : clear implicits.
Arguments SimplicialLLT : clear implicits.
Arguments world : clear implicits.

End Oracle.

(** ** The mesh context *)

Module MeshContext.

(** [unpack_edge_dir(edge_dir, edge, dir)] on a [uint16_t]: the values left
    in [edge] and in [dir]. *)
Definition unpack_edge_dir (edge_dir : Z) : Z * bool :=
  (Z.shiftr edge_dir 1 `mod` 2 ^ 16, negb (Z.land edge_dir 1 =? 0)).

(** A pointer to [uint32_t] on the device: [nullptr], or word [offset] of
    the allocation [block]. *)
Inductive ptr : Set :=
| nullptr
| Word (block : nat) (offset : Z).

#[global] Instance ptr_eq_dec : EqDecision ptr.
Proof. solve_decision. Defined.

(** [p + k], for a pointer [p] into an allocation; [init] adds to the
    pointer that [cudaMalloc] has just returned. *)
Definition ptr_add (p : ptr) (k : Z) : ptr :=
  match p with
  | nullptr => nullptr
  | Word b o => Word b (o + k)
  end.

(** Device memory, in words of 32 bits: the live allocations, every word
    unset until it is written, and the number of words that can still be
    allocated. *)
Record device : Type := {
  blocks : gmap nat (list (option Z));
  room : Z
}.

(** The errors of the CUDA runtime these calls can report. *)
Inductive cudaError : Set :=
| cudaErrorInvalidValue
| cudaErrorMemoryAllocation.

(** A call wrapped in [CUDA_ERROR]: it went through, or it reported an error
    and the macro took over; the model stops there. *)
Inductive cuda (A : Type) : Type :=
| Done (a : A)
| Failed (e : cudaError).
Arguments Done {A} a.
Arguments Failed {A} e.

#[global] Instance cuda_ret : MRet cuda := λ A a, Done a.
#[global] Instance cuda_bind : MBind cuda := λ A B f m,
  match m with
  | Done a => f a
  | Failed e => Failed e
  end.

(** [cudaMalloc(&p, words * sizeof(uint32_t))] *)
Definition cudaMalloc (words : Z) (d : device) : cuda (ptr * device) :=
  if bool_decide (0 ≤ words ≤ room d) then
    let b := fresh (dom (blocks d)) in
    Done (Word b 0,
          {| blocks := <[b := replicate (Z.to_nat words) None]> (blocks d);
             room := room d - words |})
  else Failed cudaErrorMemoryAllocation.

(** [cudaMemcpy(dst, &x, sizeof(uint32_t), cudaMemcpyHostToDevice)] *)
Definition cudaMemcpy (dst : ptr) (x : Z) (d : device) : cuda device :=
  match dst with
  | nullptr => Failed cudaErrorInvalidValue
  | Word b o =>
      match blocks d !! b with
      | Some blk =>
          if bool_decide (0 ≤ o < Z.of_nat (length blk)) then
            Done {| blocks := <[b := <[Z.to_nat o := Some x]> blk]> (blocks d);
                    room := room d |}
          else Failed cudaErrorInvalidValue
      | None => Failed cudaErrorInvalidValue
      end
  end.

(** [cudaFree(p)]: nothing for [nullptr], an error for a pointer that
    [cudaMalloc] has not returned or that has been freed. *)
Definition cudaFree (p : ptr) (d : device) : cuda device :=
  match p with
  | nullptr => Done d
  | Word b o =>
      match blocks d !! b with
      | Some blk =>
          if bool_decide (o = 0) then
            Done {| blocks := delete b (blocks d);
                    room := room d + Z.of_nat (length blk) |}
          else Failed cudaErrorInvalidValue
      | None => Failed cudaErrorInvalidValue
      end
  end.

(** [*p] in a kernel: the word, if [p] points to a word that has been
    written. *)
Definition load (d : device) (p : ptr) : option Z :=
  match p with
  | nullptr => None
  | Word b o =>
      blk ← blocks d !! b;
      if bool_decide (0 ≤ o) then mjoin (blk !! Z.to_nat o) else None
  end.

Section Context.

(** [float], [PatchInfo*] and [PatchScheduler]. *)
Context {float PatchInfoPtr PatchScheduler : Type}.

(** The data members of [class Context]. *)
Record Context : Type := {
  m_num_edges : ptr;
  m_num_faces : ptr;
  m_num_vertices : ptr;
  m_num_patches : ptr;
  m_max_num_vertices : ptr;
  m_max_num_edges : ptr;
  m_max_num_faces : ptr;
  m_vertex_prefix : ptr;
  m_edge_prefix : ptr;
  m_face_prefix : ptr;
  m_patches_info : PatchInfoPtr;
  m_capacity_factor : float;
  m_patch_scheduler : PatchScheduler
}.

(** [Context()], given [0.0f], the null [PatchInfo*] and a default
    scheduler.  The initializer list leaves out the three [m_max_num_*]
    pointers: they hold whatever was there, [junk]. *)
Definition default_Context (zero : float) (null_info : PatchInfoPtr) (scheduler : PatchScheduler)
    (junk : ptr * ptr * ptr) : Context :=
  {| m_num_edges := nullptr;
     m_num_faces := nullptr;
     m_num_vertices := nullptr;
     m_num_patches := nullptr;
     m_max_num_vertices := junk.1.1;
     m_max_num_edges := junk.1.2;
     m_max_num_faces := junk.2;
     m_vertex_prefix := nullptr;
     m_edge_prefix := nullptr;
     m_face_prefix := nullptr;
     m_patches_info := null_info;
     m_capacity_factor := zero;
     m_patch_scheduler := scheduler |}.

Definition get_num_edges (c : Context) : ptr := m_num_edges c.
Definition get_num_faces (c : Context) : ptr := m_num_faces c.
Definition get_num_vertices (c : Context) : ptr := m_num_vertices c.

(** The seven counters passed to [init]. *)
Record counters : Set := {
  num_vertices : Z;
  num_edges : Z;
  num_faces : Z;
  max_num_vertices : Z;
  max_num_edges : Z;
  max_num_faces : Z;
  num_patches : Z
}.

(** [init(num_vertices, ..., num_patches, capacity_factor, vertex_prefix,
    edge_prefix, face_prefix, d_patches, scheduler)]: the context and the
    device after the call on the context [this], every member of which is
    assigned. *)
Definition init (this : Context) (n : counters) (capacity_factor : float)
    (vertex_prefix edge_prefix face_prefix : ptr) (d_patches : PatchInfoPtr)
    (scheduler : PatchScheduler) (d : device) : cuda (Context * device) :=
  '(buffer, d) ← cudaMalloc 7 d;
  let num_vertices_p := ptr_add buffer 0 in
  let num_edges_p := ptr_add buffer 1 in
  let num_faces_p := ptr_add buffer 2 in
  let num_patches_p := ptr_add buffer 3 in
  let max_num_vertices_p := ptr_add buffer 4 in
  let max_num_edges_p := ptr_add buffer 5 in
  let max_num_faces_p := ptr_add buffer 6 in
  d ← cudaMemcpy num_vertices_p (num_vertices n) d;
  d ← cudaMemcpy num_edges_p (num_edges n) d;
  d ← cudaMemcpy num_faces_p (num_faces n) d;
  d ← cudaMemcpy num_patches_p (num_patches n) d;
  d ← cudaMemcpy max_num_vertices_p (max_num_vertices n) d;
  d ← cudaMemcpy max_num_edges_p (max_num_edges n) d;
  d ← cudaMemcpy max_num_faces_p (max_num_faces n) d;
  Done ({| m_num_edges := num_edges_p;
           m_num_faces := num_faces_p;
           m_num_vertices := num_vertices_p;
           m_num_patches := num_patches_p;
           m_max_num_vertices := max_num_vertices_p;
           m_max_num_edges := max_num_edges_p;
           m_max_num_faces := max_num_faces_p;
           m_vertex_prefix := vertex_prefix;
           m_edge_prefix := edge_prefix;
           m_face_prefix := face_prefix;
           m_patches_info := d_patches;
           m_capacity_factor := capacity_factor;
           m_patch_scheduler := scheduler |}, d).

(** [release()] *)
Definition release (c : Context) (d : device) : cuda device :=
  cudaFree (m_num_vertices c) d.

End Context.

Arguments Context : clear implicits.

End MeshContext.

(** * Specification side *)

(** ** Structural Cholesky factor of a pattern *)

(** [Fill A i j] (for [j < i]): position [(i, j)] of the Cholesky factor of a
    symmetric matrix with the lower pattern [A] is structurally nonzero, i.e.
    it is an entry of [A] or it is created when an earlier column [k] is
    eliminated in which both [i] and [j] are present. *)
Inductive Fill (A : Z → Z → bool) : Z → Z → Prop :=
| Fill_entry i j : 0 ≤ j < i → A i j = true → Fill A i j
| Fill_elim i j k : 0 ≤ k < j → j < i → Fill A i k → Fill A j k → Fill A i j.

(** The same as a boolean function; [fuel] bounds the column. *)
Fixpoint fill_fuel (fuel : nat) (A : Z → Z → bool) (i j : Z) : bool :=
  bool_decide (0 ≤ j < i) &&
  (A i j ||
   match fuel with
   | O => false
   | S fuel' => existsb (λ k, fill_fuel fuel' A i k && fill_fuel fuel' A j k) (seqZ 0 j)
   end).

(** Column [j] needs the columns before it only. *)
Definition fillb (A : Z → Z → bool) (i j : Z) : bool := fill_fuel (Z.to_nat j) A i j.

(** The number of structural nonzeros of row [i] left of the diagonal. *)
Definition row_nnz (A : Z → Z → bool) (i : Z) : Z :=
  Z.of_nat (length (filter (λ j, fillb A i j) (seqZ 0 i))).

(** The number of structural nonzeros strictly below the diagonal in the
    rows [0 .. n-1]. *)
Definition fill_count (A : Z → Z → bool) (n : Z) : Z :=
  foldr (λ i acc, row_nnz A i + acc) 0 (seqZ 0 n).

(** ** Patterns in compressed-row storage *)

Import EliminationTree.

(** The column indices stored in row [r]. *)
Definition row_cols (mat : SparseMatrix) (r : Z) : list Z :=
  match vec_get (row_ptr mat) r, vec_get (row_ptr mat) (r + 1) with
  | Ok s, Ok e => take (Z.to_nat (e - s)) (drop (Z.to_nat s) (col_idx mat))
  | _, _ => []
  end.

(** The pattern of [mat]. *)
Definition stored (mat : SparseMatrix) (i j : Z) : bool :=
  bool_decide (j ∈ row_cols mat i).

(** Well-formed storage: monotone row pointers into [col_idx] and column
    indices in [[0, n)]. *)
Definition well_formed (mat : SparseMatrix) : Prop :=
  0 ≤ rows mat ∧
  length (row_ptr mat) = Z.to_nat (rows mat + 1) ∧
  Sorted Z.le (row_ptr mat) ∧
  Forall (λ p, 0 ≤ p ≤ Z.of_nat (length (col_idx mat))) (row_ptr mat) ∧
  Forall (λ c, 0 ≤ c < rows mat) (col_idx mat).

#[global] Instance well_formed_dec mat : Decision (well_formed mat).
Proof. unfold well_formed. apply _. Defined.

(** The count the sweep is to return, before it is cut to an [int]. *)
Definition exact_fill (mat : SparseMatrix) : Z :=
  2 * fill_count (stored mat) (rows mat) + rows mat.

(** ** Dense patterns *)


(** ** Patterns of Eigen matrices and structural factors *)

Import Oracle.

(** The positions stored in [mat], row by row. *)
Definition csr_positions (mat : SparseMatrix) : list (Z * Z) :=
  r ← seqZ 0 (rows mat); (λ j, (r, j)) <$> row_cols mat r.

Section Patterns.

Context {V : Type}.

(** The positions of the stored entries. *)
Definition positions (m : EigenMat V) : list (Z * Z) := fst <$> e_entries m.

(** The pattern of [m]. *)
Definition stored_at (m : EigenMat V) (i j : Z) : bool :=
  bool_decide ((i, j) ∈ positions m).

(** The positions of the structural factor of the lower pattern [A] of
    order [n], row by row, the diagonal last in its row. *)
Definition factor_positions (A : Z → Z → bool) (n : Z) : list (Z * Z) :=
  r ← seqZ 0 n; ((λ j, (r, j)) <$> filter (λ j, fillb A r j) (seqZ 0 r)) ++ [(r, r)].

(** [L] has the order of [A], stores no position twice, and stores exactly
    the diagonal and the structural nonzeros of the factor of [A]. *)
Definition structural_factor (A L : EigenMat V) : Prop :=
  e_rows L = e_rows A ∧ NoDup (positions L) ∧
  ∀ i j, (i, j) ∈ positions L ↔
         0 ≤ j ∧ i < e_rows A ∧ (j = i ∨ Fill (stored_at A) i j).

(** A symbolic factorization: the structural factor of [A], every value [one]. *)
Definition symbolic_factor (one : V) (A : EigenMat V) : EigenMat V :=
  {| e_rows := e_rows A;
     e_entries := (λ p, (p, one)) <$> factor_positions (stored_at A) (e_rows A) |}.

(** The storage [mat] holds the symmetric matrix whose lower triangle is stored
    in [M], its indices relabeled by [P]. *)
Definition relabeled (M : EigenMat V) (P : list Z) (mat : SparseMatrix) : Prop :=
  rows mat = e_rows M ∧
  ∀ i j, stored mat i j = true ↔
    ∃ r c v, (r, c, v) ∈ e_entries M ∧ c ≤ r ∧
             ((vec_get P r = Ok i ∧ vec_get P c = Ok j) ∨
              (vec_get P r = Ok j ∧ vec_get P c = Ok i)).



(** What is assumed of the external factorization: when it succeeds, the
    factor it returns is the structural factor of its argument. *)
Definition computes_structural_factor (compute : EigenMat V → SimplicialLLT V) : Prop :=
  ∀ A, info (compute A) = Success → structural_factor A (matrixL (compute A)).

(** The lines after the export, for the permuted matrix [A]. *)
Definition after_export (compute : EigenMat V → SimplicialLLT V) (A : EigenMat V)
    (hp : list Z) (w1 : world V) : Z * list Z * world V :=
  let solver := compute A in
  if bool_decide (info solver ≠ Success) then
    (-1, hp, log_error (info solver) (factorized w1))
  else
    (wrap_int (wrap_index (wrap_int (2 * wrap_int (wrap_index
        (nonZeros (matrixL solver) - e_rows (matrixL solver)))) + e_rows (matrixL solver))),
     hp, factorized w1).

(** The integer a call returns, if it returns. *)
Definition returned (r : result (Z * list Z * world V)) : result Z :=
  x ← r; Ok x.1.1.

End Patterns.

(** ** Invariants of the sweep *)

(** The number of nodes below [r] that carry the tag [r]. *)
Definition visited_count (r : Z) (s : etree) : Z :=
  Z.of_nat (length (filter (λ v, tags s !! Z.to_nat v = Some r) (seqZ 0 r))).

(** The state while row [r] is processed, seen at the head of the ancestor
    walk; [base] is the count of the rows before [r]. *)
Record row_inv (A : Z → Z → bool) (n r base : Z) (s : etree) : Prop := {
  ri_row : 0 ≤ r < n;
  ri_len_parent : Z.of_nat (length (parent s)) = n;
  ri_len_cols : Z.of_nat (length (nonZerosPerCol s)) = n;
  ri_len_tags : Z.of_nat (length (tags s)) = n;
  ri_parent : ∀ v, 0 ≤ v ≤ r →
    ∃ p, parent s !! Z.to_nat v = Some p ∧ (p = -1 ∨ v < p ≤ r);
  ri_first : ∀ v p, 0 ≤ v ≤ r → parent s !! Z.to_nat v = Some p → p ≠ -1 →
    Fill A p v ∧ ∀ i, v < i < p → ¬ Fill A i v;
  ri_orphan : ∀ v i, 0 ≤ v ≤ r → parent s !! Z.to_nat v = Some (-1) →
    v < i < r → ¬ Fill A i v;
  ri_tags : ∀ v, 0 ≤ v ≤ r → ∃ t, tags s !! Z.to_nat v = Some t ∧ v ≤ t ≤ r;
  ri_visited : ∀ v, 0 ≤ v < r → tags s !! Z.to_nat v = Some r →
    Fill A r v ∧ parent s !! Z.to_nat v ≠ Some (-1);
  ri_nnz : nnz s = wrap_int (base + visited_count r s)
}.

(** Every tagged node below [r] has a tagged parent, the node [c] that the
    walk is about to look at excepted. *)
Definition closed_up_to (r c : Z) (s : etree) : Prop :=
  ∀ v, 0 ≤ v < r → tags s !! Z.to_nat v = Some r →
    ∃ p, parent s !! Z.to_nat v = Some p ∧ v < p ∧
         (p = c ∨ tags s !! Z.to_nat p = Some r).

(** The state between two rows: the rows below [r] are done. *)
Record sweep_inv (A : Z → Z → bool) (n r : Z) (s : etree) : Prop := {
  si_row : 0 ≤ r ≤ n;
  si_len_parent : Z.of_nat (length (parent s)) = n;
  si_len_cols : Z.of_nat (length (nonZerosPerCol s)) = n;
  si_len_tags : Z.of_nat (length (tags s)) = n;
  si_parent : ∀ v, 0 ≤ v < r →
    ∃ p, parent s !! Z.to_nat v = Some p ∧ (p = -1 ∨ v < p < r);
  si_first : ∀ v p, 0 ≤ v < r → parent s !! Z.to_nat v = Some p → p ≠ -1 →
    Fill A p v ∧ ∀ i, v < i < p → ¬ Fill A i v;
  si_orphan : ∀ v i, 0 ≤ v < r → parent s !! Z.to_nat v = Some (-1) →
    v < i < r → ¬ Fill A i v;
  si_tags : ∀ v, 0 ≤ v < r → ∃ t, tags s !! Z.to_nat v = Some t ∧ v ≤ t < r;
  si_nnz : nnz s = wrap_int (fill_count A r)
}.

(** The configurations a call passes through. *)
Inductive reachable (mat : SparseMatrix) : point * etree → Prop :=
| reachable_start s0 :
    start_state (rows mat) = Ok s0 → reachable mat (RowHead 0, s0)
| reachable_step cfg cfg' :
    reachable mat cfg → step mat cfg = Ok cfg' → reachable mat cfg'.

(** Node [v] while row [r] is the last row entered: it has no parent and has
    never been visited (its tag is its own index), or its parent is a later
    row, not after the row [t ≤ r] that visited it last. *)
Definition node_ok (r : Z) (s : etree) (v : Z) : Prop :=
  ∃ p t, parent s !! Z.to_nat v = Some p ∧ tags s !! Z.to_nat v = Some t ∧
         ((p = -1 ∧ t = v) ∨ (v < p ∧ p ≤ t ∧ t ≤ r)).

(** The nodes whose slots have been initialized. *)
Definition initialized (mat : SparseMatrix) (pt : point) (v : Z) : Prop :=
  match pt with
  | RowHead r => 0 ≤ v < r
  | EntryHead r _ _ | WalkHead r _ _ _ => 0 ≤ v ≤ r
  | Returned => 0 ≤ v < rows mat
  end.

(** The last row entered. *)
Definition current_row (mat : SparseMatrix) (pt : point) : Z :=
  match pt with
  | RowHead r => r - 1
  | EntryHead r _ _ | WalkHead r _ _ _ => r
  | Returned => rows mat - 1
  end.

(** What holds at every loop head: the initialized nodes are in order, and
    the indices of the loops are in range. *)
Definition forest_inv (mat : SparseMatrix) (cfg : point * etree) : Prop :=
  (∀ v, initialized mat cfg.1 v → node_ok (current_row mat cfg.1) cfg.2 v) ∧
  match cfg.1 with
  | RowHead r => 0 ≤ r ≤ rows mat
  | EntryHead r _ _ => 0 ≤ r < rows mat
  | WalkHead r _ _ c => 0 ≤ r < rows mat ∧ c ≤ r
  | Returned => True
  end.

(** ** Invariants of the column counts *)

(** The number of rows after [v] and before [r] whose row of the factor
    holds column [v]. *)
Definition col_count (A : Z → Z → bool) (v r : Z) : Z :=
  Z.of_nat (length (filter (λ i, fillb A i v) (seqZ (v + 1) (r - (v + 1))))).

(** [nonZerosPerCol] while row [r] is processed: a node that carries the
    tag [r] has been counted once more. *)
Record cols_inv (A : Z → Z → bool) (r : Z) (s : etree) : Prop := {
  ci_row : 0 ≤ r;
  ci_tag : tags s !! Z.to_nat r = Some r;
  ci_own : nonZerosPerCol s !! Z.to_nat r = Some 0;
  ci_cols : ∀ v, 0 ≤ v < r →
    nonZerosPerCol s !! Z.to_nat v =
      Some (wrap_int (col_count A v r +
                      (if bool_decide (tags s !! Z.to_nat v = Some r) then 1 else 0)))
}.

(** [nonZerosPerCol] between two rows. *)
Definition cols_done (A : Z → Z → bool) (r : Z) (s : etree) : Prop :=
  ∀ v, 0 ≤ v < r → nonZerosPerCol s !! Z.to_nat v = Some (wrap_int (col_count A v r)).

(** ** Worked instances *)

(** The path 0 - 1 - 2 - 3 with its diagonal, in full CSR. *)
Definition path4 : SparseMatrix :=
  {| rows := 4; row_ptr := [0; 2; 5; 8; 10];
     col_idx := [0; 1;  0; 1; 2;  1; 2; 3;  2; 3] |}.


(** The lower triangle of the Laplacian-like matrix of the path 0 - 1 - 2. *)
Definition M3 : EigenMat Z :=
  {| e_rows := 3;
     e_entries := [(0, 0, 2); (1, 0, -1); (1, 1, 2); (2, 1, -1); (2, 2, 2)] |}.

(** The middle vertex first. *)
Definition P3 : list Z := [1; 0; 2].

(** [M3] permuted by [P3] and expanded. *)
Definition A3 : EigenMat Z :=
  {| e_rows := 3;
     e_entries := [(1, 1, 2); (0, 1, -1); (1, 0, -1); (0, 0, 2);
                   (2, 0, -1); (0, 2, -1); (2, 2, 2)] |}.

(** [M3] relabeled by [P3], in full CSR. *)
Definition mat3 : SparseMatrix :=
  {| rows := 3; row_ptr := [0; 3; 5; 7]; col_idx := [0; 1; 2;  0; 1;  0; 2] |}.


(** A stub of the factorization that succeeds with the symbolic factor. *)
Definition symbolic_llt (A : EigenMat Z) : SimplicialLLT Z :=
  {| info := Success; matrixL := symbolic_factor 1 A |}.

(** A stub that fails. *)
Definition failing_llt (A : EigenMat Z) : SimplicialLLT Z :=
  {| info := NumericalIssue; matrixL := {| e_rows := 0; e_entries := [] |} |}.

(** A world in which every file can be opened, and one in which none can. *)
Definition world_rw : world Z :=
  {| can_open := λ _, true; files := ∅; diagnostics := []; factorizations := 0 |}.
Definition world_ro : world Z :=
  {| can_open := λ _, false; files := ∅; diagnostics := []; factorizations := 0 |}.

(** ** More worked instances *)

(** An arrow pointing up and left: the first row and column are full. *)
Definition arrow4 : SparseMatrix :=
  {| rows := 4; row_ptr := [0; 4; 6; 8; 10];
     col_idx := [0; 1; 2; 3;  0; 1;  0; 2;  0; 3] |}.

(** The upper triangle of [path4] only. *)
Definition upper4 : SparseMatrix :=
  {| rows := 4; row_ptr := [0; 2; 4; 6; 7]; col_idx := [0; 1;  1; 2;  2; 3;  3] |}.

(** [path4] with the entries of each row in another order and one of them
    stored twice. *)
Definition path4_shuffled : SparseMatrix :=
  {| rows := 4; row_ptr := [0; 2; 6; 9; 11];
     col_idx := [1; 0;  2; 0; 1; 0;  3; 2; 1;  3; 2] |}.

(** ** Patterns of any order *)



(** ** The mesh context: instances *)

(** The words of the buffer after [init]. *)
Definition buffer_words (n : MeshContext.counters) : list (option Z) :=
  [Some (MeshContext.num_vertices n); Some (MeshContext.num_edges n);
   Some (MeshContext.num_faces n); Some (MeshContext.num_patches n);
   Some (MeshContext.max_num_vertices n); Some (MeshContext.max_num_edges n);
   Some (MeshContext.max_num_faces n)].

(** A triangulated cube in two patches. *)
Definition cube : MeshContext.counters :=
  {| MeshContext.num_vertices := 8; MeshContext.num_edges := 18;
     MeshContext.num_faces := 12; MeshContext.max_num_vertices := 6;
     MeshContext.max_num_edges := 11; MeshContext.max_num_faces := 6;
     MeshContext.num_patches := 2 |}.

(** A device with nothing allocated and room for twenty words. *)
Definition empty_device : MeshContext.device :=
  {| MeshContext.blocks := ∅; MeshContext.room := 20 |}.

(** A context that has never been initialized, and the context whose buffer
    is the allocation [b]; the types of the other members are not looked at. *)
Definition fresh_context : MeshContext.Context unit unit unit :=
  MeshContext.default_Context tt tt tt
    (MeshContext.nullptr, MeshContext.nullptr, MeshContext.nullptr).
Definition context_at (b : nat) : MeshContext.Context unit unit unit :=
  {| MeshContext.m_num_edges := MeshContext.Word b 1;
     MeshContext.m_num_faces := MeshContext.Word b 2;
     MeshContext.m_num_vertices := MeshContext.Word b 0;
     MeshContext.m_num_patches := MeshContext.Word b 3;
     MeshContext.m_max_num_vertices := MeshContext.Word b 4;
     MeshContext.m_max_num_edges := MeshContext.Word b 5;
     MeshContext.m_max_num_faces := MeshContext.Word b 6;
     MeshContext.m_vertex_prefix := MeshContext.nullptr;
     MeshContext.m_edge_prefix := MeshContext.nullptr;
     MeshContext.m_face_prefix := MeshContext.nullptr;
     MeshContext.m_patches_info := tt;
     MeshContext.m_capacity_factor := tt;
     MeshContext.m_patch_scheduler := tt |}.

(** The device after [init] on [empty_device], and after a second [init]. *)
Definition device_once : MeshContext.device :=
  {| MeshContext.blocks := {[ 0%nat := buffer_words cube ]}; MeshContext.room := 13 |}.
Definition device_twice : MeshContext.device :=
  {| MeshContext.blocks := <[ 1%nat := buffer_words cube ]> {[ 0%nat := buffer_words cube ]};
     MeshContext.room := 6 |}.

(** * Proofs *)

(** ** Machine integers *)

Lemma wrap_int_small z : INT_MIN ≤ z ≤ INT_MAX → wrap_int z = z.
Proof.
  unfold wrap_int, INT_MIN, INT_MAX. intros H.
  rewrite Z.mod_small by lia. lia.
Qed.

Lemma wrap_int_range z : INT_MIN ≤ wrap_int z ≤ INT_MAX.
Proof.
  unfold wrap_int, INT_MIN, INT_MAX.
  pose proof (Z.mod_pos_bound (z + 2147483648) 4294967296). lia.
Qed.

Lemma wrap_int_add_l a b : wrap_int (wrap_int a + b) = wrap_int (a + b).
Proof.
  unfold wrap_int. f_equal.
  replace ((a + 2147483648) `mod` 4294967296 - 2147483648 + b + 2147483648)
    with ((a + 2147483648) `mod` 4294967296 + b) by lia.
  rewrite Zplus_mod_idemp_l. f_equal. lia.
Qed.

Lemma wrap_int_mul_r a b : wrap_int (a * wrap_int b) = wrap_int (a * b).
Proof.
  unfold wrap_int. f_equal.
  replace (a * ((b + 2147483648) `mod` 4294967296 - 2147483648) + 2147483648)
    with (a * ((b + 2147483648) `mod` 4294967296) + (2147483648 - a * 2147483648)) by lia.
  rewrite <- Zplus_mod_idemp_l, Zmult_mod_idemp_r, Zplus_mod_idemp_l. f_equal. lia.
Qed.

Lemma wrap_int_index z : wrap_int (wrap_index z) = wrap_int z.
Proof.
  unfold wrap_int, wrap_index. f_equal.
  rewrite (Z.mod_eq (z + 9223372036854775808) 18446744073709551616) by lia.
  set (q := (z + 9223372036854775808) `div` 18446744073709551616).
  replace (z + 9223372036854775808 - 18446744073709551616 * q
             - 9223372036854775808 + 2147483648)
    with (z + 2147483648 + (- (4294967296 * q)) * 4294967296) by lia.
  apply Z_mod_plus_full.
Qed.

(** ** Vectors and loops *)

Lemma vec_get_Ok {A} (v : list A) i x :
  vec_get v i = Ok x ↔ 0 ≤ i ∧ v !! Z.to_nat i = Some x.
Proof.
  unfold vec_get. case_bool_decide as Hi.
  - destruct (v !! Z.to_nat i) as [y|]; split; try (by intros [=->]); try (by intros [_ [=->]]).
    all: by intros [_ [=]].
  - split; [done|]. by intros [? _].
Qed.

Lemma vec_get_lookup {A} (v : list A) i x :
  0 ≤ i → v !! Z.to_nat i = Some x → vec_get v i = Ok x.
Proof. intros. by apply vec_get_Ok. Qed.

Lemma vec_set_Ok {A} (v : list A) i x :
  0 ≤ i < Z.of_nat (length v) → vec_set v i x = Ok (<[Z.to_nat i := x]> v).
Proof. intros. unfold vec_set. by rewrite bool_decide_eq_true_2. Qed.

Lemma vec_set_inv {A} (v v' : list A) i x :
  vec_set v i x = Ok v' → 0 ≤ i < Z.of_nat (length v) ∧ v' = <[Z.to_nat i := x]> v.
Proof. unfold vec_set. case_bool_decide; [|done]. by intros [= <-]. Qed.

Lemma for_count_inv {St} (I : Z → St → Prop) (body : Z → St → result St) k lo s :
  I lo s →
  (∀ i t, lo ≤ i < lo + Z.of_nat k → I i t → ∃ t', body i t = Ok t' ∧ I (i + 1) t') →
  ∃ s', for_count k lo body s = Ok s' ∧ I (lo + Z.of_nat k) s'.
Proof.
  revert lo s. induction k as [|k IH]; intros lo s H0 Hstep.
  - exists s. split; [done|]. by replace (lo + Z.of_nat 0) with lo by lia.
  - destruct (Hstep lo s) as (t' & Hb & Ht'); [lia|done|].
    destruct (IH (lo + 1) t') as (s' & Hrun & Hs'); [done| |].
    + intros i t Hi. apply Hstep. lia.
    + exists s'. simpl. rewrite Hb. simpl. split; [done|].
      by replace (lo + Z.of_nat (S k)) with (lo + 1 + Z.of_nat k) by lia.
Qed.

Lemma for_range_inv {St} (I : Z → St → Prop) (body : Z → St → result St) lo hi s :
  lo ≤ hi → I lo s →
  (∀ i t, lo ≤ i < hi → I i t → ∃ t', body i t = Ok t' ∧ I (i + 1) t') →
  ∃ s', for_range lo hi body s = Ok s' ∧ I hi s'.
Proof.
  intros Hle H0 Hstep. unfold for_range.
  destruct (for_count_inv I body (Z.to_nat (hi - lo)) lo s) as (s' & ? & ?); [done| |].
  - intros i t Hi. apply Hstep. lia.
  - exists s'. split; [done|]. by replace hi with (lo + Z.of_nat (Z.to_nat (hi - lo))) at 1 by lia.
Qed.

(** ** The structural factor *)

Lemma Fill_bounds A i j : Fill A i j → 0 ≤ j < i.
Proof. destruct 1; lia. Qed.

Lemma fill_fuel_sound A fuel : ∀ i j, fill_fuel fuel A i j = true → Fill A i j.
Proof.
  induction fuel as [|fuel IH]; intros i j; simpl;
    rewrite andb_true_iff, bool_decide_eq_true, orb_true_iff.
  - intros [? [?|?]]; [by apply Fill_entry|done].
  - intros [? [?|Hex]]; [by apply Fill_entry|].
    apply existsb_exists in Hex as (k & Hk & Hkk).
    apply list_elem_of_In, elem_of_seqZ in Hk. apply andb_true_iff in Hkk as [??].
    apply (Fill_elim A i j k); [lia|lia|by apply IH..].
Qed.

Lemma fill_fuel_complete A i j :
  Fill A i j → ∀ fuel, (Z.to_nat j ≤ fuel)%nat → fill_fuel fuel A i j = true.
Proof.
  induction 1 as [i j ? HA|i j k ? ? _ IH1 _ IH2]; intros fuel Hf.
  - destruct fuel; simpl; rewrite HA; simpl; rewrite andb_true_r; by apply bool_decide_eq_true.
  - destruct fuel as [|fuel]; [lia|]. simpl.
    rewrite andb_true_iff, bool_decide_eq_true, orb_true_iff. split; [lia|right].
    apply existsb_exists. exists k. split.
    + apply list_elem_of_In, elem_of_seqZ. lia.
    + rewrite IH1, IH2 by lia. done.
Qed.

Lemma fillb_Fill A i j : fillb A i j = true ↔ Fill A i j.
Proof.
  split; [apply fill_fuel_sound|]. intros. by apply fill_fuel_complete.
Qed.

Lemma fill_count_succ A n : 0 ≤ n → fill_count A (n + 1) = fill_count A n + row_nnz A n.
Proof.
  intros Hn. unfold fill_count. rewrite seqZ_app by lia.
  rewrite foldr_app. rewrite (seqZ_cons _ 1), seqZ_nil by lia. simpl.
  replace (0 + n) with n by lia.
  generalize (seqZ 0 n). intros l. induction l as [|x l IH]; simpl; lia.
Qed.

Lemma fill_count_0 A : fill_count A 0 = 0.
Proof. done. Qed.

(** ** Invariants of the sweep *)

Lemma filter_ext_in {B} (P Q : B → Prop) `{∀ x, Decision (P x)} `{∀ x, Decision (Q x)}
    (l : list B) :
  (∀ x, x ∈ l → P x ↔ Q x) → filter P l = filter Q l.
Proof.
  induction l as [|x l IH]; intros Hiff; [done|].
  assert (filter P l = filter Q l) as Hl.
  { apply IH. intros y Hy. apply Hiff. by right. }
  destruct (decide (P x)) as [HP|HP].
  - assert (Q x) as HQ by (apply Hiff; [by left|done]).
    rewrite (filter_cons_True P), (filter_cons_True Q) by done. by f_equal.
  - assert (¬ Q x) as HQ by (rewrite <- Hiff; [done|by left]).
    by rewrite (filter_cons_False P), (filter_cons_False Q) by done.
Qed.

Lemma filter_length_flip {B} (P Q : B → Prop) `{∀ x, Decision (P x)} `{∀ x, Decision (Q x)}
    (l : list B) (c : B) :
  NoDup l → c ∈ l → ¬ P c → Q c → (∀ x, x ∈ l → x ≠ c → P x ↔ Q x) →
  length (filter Q l) = S (length (filter P l)).
Proof.
  intros Hnd Hc HPc HQc Hiff. induction Hnd as [|x l Hx Hnd IH]; [by apply elem_of_nil in Hc|].
  apply elem_of_cons in Hc as [<-|Hc].
  - rewrite filter_cons_True, filter_cons_False by done. simpl. f_equal.
    f_equal. apply filter_ext_in. intros y Hy.
    symmetry. apply Hiff; [by right|]. by intros ->.
  - assert (x ≠ c) as Hxc by (by intros ->).
    assert (length (filter Q l) = S (length (filter P l))) as Hl.
    { apply IH; [done|]. intros y Hy. apply Hiff. by right. }
    destruct (decide (P x)) as [HP|HP].
    + assert (Q x) as HQ by (apply Hiff; [by left|done..]).
      rewrite (filter_cons_True P), (filter_cons_True Q) by done. simpl. by rewrite Hl.
    + assert (¬ Q x) as HQ by (rewrite <- Hiff; [done|by left|done]).
      by rewrite (filter_cons_False P), (filter_cons_False Q) by done.
Qed.

Lemma visited_count_visit r c tags0 :
  0 ≤ c < r → tags0 !! Z.to_nat c ≠ Some r → (Z.to_nat c < length tags0)%nat →
  Z.of_nat (length (filter (λ v, <[Z.to_nat c := r]> tags0 !! Z.to_nat v = Some r) (seqZ 0 r)))
  = Z.of_nat (length (filter (λ v, tags0 !! Z.to_nat v = Some r) (seqZ 0 r))) + 1.
Proof.
  intros Hc Ht Hlen.
  rewrite (filter_length_flip (λ v, tags0 !! Z.to_nat v = Some r)
             (λ v, <[Z.to_nat c := r]> tags0 !! Z.to_nat v = Some r) (seqZ 0 r) c).
  - lia.
  - apply NoDup_seqZ.
  - apply elem_of_seqZ. lia.
  - done.
  - by apply list_lookup_insert_eq.
  - intros x Hx Hxc. apply elem_of_seqZ in Hx.
    rewrite list_lookup_insert_ne by lia. done.
Qed.

Lemma visit_Ok r c s p k :
  0 ≤ c → parent s !! Z.to_nat c = Some p → nonZerosPerCol s !! Z.to_nat c = Some k →
  (Z.to_nat c < length (tags s))%nat →
  visit r c s =
    Ok ({| parent := if bool_decide (p = -1) then <[Z.to_nat c := r]> (parent s) else parent s;
           nonZerosPerCol := <[Z.to_nat c := wrap_int (k + 1)]> (nonZerosPerCol s);
           tags := <[Z.to_nat c := r]> (tags s);
           nnz := wrap_int (nnz s + 1) |},
        if bool_decide (p = -1) then r else p).
Proof.
  intros Hc Hp Hk Ht. unfold visit.
  pose proof (lookup_lt_Some _ _ _ Hp) as Hlp.
  pose proof (lookup_lt_Some _ _ _ Hk) as Hlk.
  rewrite (vec_get_lookup _ _ _ Hc Hp). simpl.
  case_bool_decide as Hp1.
  - rewrite vec_set_Ok by lia. simpl.
    rewrite (vec_get_lookup _ _ _ Hc Hk). simpl.
    rewrite !vec_set_Ok by lia. simpl.
    rewrite (vec_get_lookup _ c r); [done|done|]. by apply list_lookup_insert_eq.
  - simpl. rewrite (vec_get_lookup _ _ _ Hc Hk). simpl.
    rewrite !vec_set_Ok by lia. simpl.
    by rewrite (vec_get_lookup _ _ _ Hc Hp).
Qed.

Lemma visit_inv A n r base c s :
  row_inv A n r base s → closed_up_to r c s → 0 ≤ c < r →
  tags s !! Z.to_nat c ≠ Some r → Fill A r c →
  ∃ s' c', visit r c s = Ok (s', c') ∧ row_inv A n r base s' ∧ closed_up_to r c' s' ∧
           c < c' ≤ r ∧ (c' < r → Fill A r c') ∧
           (∀ v, tags s !! Z.to_nat v = Some r → tags s' !! Z.to_nat v = Some r) ∧
           tags s' !! Z.to_nat c = Some r.
Proof.
  intros Hinv Hcl Hc Ht HF.
  destruct Hinv as [Hr Hlp Hlc Hlt Hpar Hfirst Horph Htags Hvis Hnnz].
  destruct (Hpar c) as (p & Hp & Hpb); [lia|].
  destruct (lookup_lt_is_Some_2 (nonZerosPerCol s) (Z.to_nat c)) as [k Hk]; [lia|].
  rewrite (visit_Ok r c s p k) by (done || lia).
  set (par1 := if bool_decide (p = -1) then <[Z.to_nat c := r]> (parent s) else parent s).
  set (c' := if bool_decide (p = -1) then r else p).
  assert (par1 !! Z.to_nat c = Some c') as Hpc.
  { unfold par1, c'. case_bool_decide; [|done]. apply list_lookup_insert_eq. lia. }
  assert (∀ v, 0 ≤ v → v ≠ c → par1 !! Z.to_nat v = parent s !! Z.to_nat v) as Hpo.
  { intros v Hv Hvc. unfold par1. case_bool_decide; [|done].
    apply list_lookup_insert_ne. lia. }
  assert (length par1 = length (parent s)) as Hlen1.
  { unfold par1. case_bool_decide; [|done]. apply length_insert. }
  assert (c < c' ≤ r) as Hc'.
  { unfold c'. case_bool_decide; lia. }
  assert (Fill A c' c ∧ ∀ i, c < i < c' → ¬ Fill A i c) as [HFc Hmin].
  { unfold c'. case_bool_decide as Hp1.
    - split; [done|]. intros i Hi. apply (Horph c i); [lia| |lia]. by rewrite Hp, Hp1.
    - apply Hfirst; [lia|done..]. }
  assert (∀ v, 0 ≤ v → v ≠ c →
            <[Z.to_nat c := r]> (tags s) !! Z.to_nat v = tags s !! Z.to_nat v) as Hto.
  { intros v Hv Hvc. apply list_lookup_insert_ne. lia. }
  assert (<[Z.to_nat c := r]> (tags s) !! Z.to_nat c = Some r) as Htc.
  { apply list_lookup_insert_eq. lia. }
  eexists _, _. split; [done|]. split; [|split; [|split; [done|split; [|split]]]].
  - split; simpl.
    + done.
    + lia.
    + rewrite length_insert. lia.
    + rewrite length_insert. lia.
    + intros v Hv. destruct (decide (v = c)) as [->|Hvc].
      * exists c'. split; [done|]. right. lia.
      * rewrite Hpo by lia. by apply Hpar.
    + intros v q Hv. destruct (decide (v = c)) as [->|Hvc].
      * rewrite Hpc. intros [= <-] _. done.
      * rewrite Hpo by lia. by apply Hfirst.
    + intros v i Hv. destruct (decide (v = c)) as [->|Hvc].
      * rewrite Hpc. intros [= ?]. lia.
      * rewrite Hpo by lia. by apply Horph.
    + intros v Hv. destruct (decide (v = c)) as [->|Hvc].
      * exists r. split; [done|lia].
      * rewrite Hto by lia. by apply Htags.
    + intros v Hv. destruct (decide (v = c)) as [->|Hvc].
      * intros _. split; [done|]. rewrite Hpc. intros [= ?]. lia.
      * rewrite Hto, Hpo by lia. by apply Hvis.
    + rewrite Hnnz. unfold visited_count. simpl.
      rewrite (visited_count_visit r c (tags s)) by (done || lia).
      rewrite wrap_int_add_l. f_equal. lia.
  - intros v Hv. simpl. destruct (decide (v = c)) as [->|Hvc].
    + intros _. exists c'. split; [done|]. split; [lia|by left].
    + rewrite Hto, Hpo by lia. intros Hvt.
      destruct (Hcl v Hv Hvt) as (q & Hq & Hvq & [->|Hqt]).
      * exists c. split; [done|]. split; [done|]. by right.
      * exists q. split; [done|]. split; [done|]. right.
        destruct (decide (q = c)) as [->|Hqc]; [done|]. by rewrite Hto by lia.
  - intros Hc'r. by apply (Fill_elim A r c' c); [lia|lia|..].
  - simpl. intros v Hv. destruct (decide (Z.to_nat v = Z.to_nat c)) as [Heq|Hne].
    + rewrite Heq. done.
    + by rewrite list_lookup_insert_ne.
  - done.
Qed.

Lemma walk_inv A n r base : ∀ fuel c s,
  row_inv A n r base s → closed_up_to r c s → 0 ≤ c ≤ r → (c < r → Fill A r c) →
  (Z.to_nat (r - c) < fuel)%nat →
  ∃ s', walk fuel r c s = Ok s' ∧ row_inv A n r base s' ∧ closed_up_to r r s' ∧
        (∀ v, tags s !! Z.to_nat v = Some r → tags s' !! Z.to_nat v = Some r) ∧
        tags s' !! Z.to_nat c = Some r.
Proof.
  induction fuel as [|fuel IH]; intros c s Hinv Hcl Hc HF Hfuel; [lia|].
  destruct (ri_tags _ _ _ _ _ Hinv c) as (t & Ht & Htb); [lia|].
  simpl. rewrite (vec_get_lookup _ _ _ (proj1 Hc) Ht). simpl.
  case_bool_decide as Htr.
  - subst t. exists s. split; [done|]. split; [done|]. split; [|done].
    intros v Hv Hvt. destruct (Hcl v Hv Hvt) as (q & Hq & Hvq & [->|Hqt]); eauto.
  - assert (c < r) as Hlt by lia.
    destruct (visit_inv A n r base c s) as (s1 & c1 & Hvis & Hinv1 & Hcl1 & Hc1 & HF1 & Hmono & Htc);
      [done|done|lia|congruence|by apply HF|].
    rewrite Hvis. simpl.
    destruct (IH c1 s1) as (s' & Hw & Hinv' & Hcl' & Hmono' & _); [done|done|lia|done|lia|].
    exists s'. split; [done|]. split; [done|]. split; [done|]. split; auto.
Qed.

(** ** Rows in compressed-row storage *)

Lemma Sorted_lookup_succ (l : list Z) i a b :
  Sorted Z.le l → l !! i = Some a → l !! S i = Some b → a ≤ b.
Proof.
  intros Hs. revert i. induction Hs as [|x l Hs IH Hhd]; intros i; [done|].
  destruct i as [|i]; simpl.
  - intros [= ->] Hb. destruct l as [|y l]; [done|]. simpl in Hb. injection Hb as ->.
    by inversion Hhd.
  - apply IH.
Qed.

Lemma well_formed_row mat r :
  well_formed mat → 0 ≤ r < rows mat →
  ∃ s e, row_ptr mat !! Z.to_nat r = Some s ∧ row_ptr mat !! Z.to_nat (r + 1) = Some e ∧
         0 ≤ s ≤ e ∧ e ≤ Z.of_nat (length (col_idx mat)).
Proof.
  intros (Hn & Hlen & Hsort & Hptr & _) Hr.
  destruct (lookup_lt_is_Some_2 (row_ptr mat) (Z.to_nat r)) as [s Hs]; [lia|].
  destruct (lookup_lt_is_Some_2 (row_ptr mat) (Z.to_nat (r + 1))) as [e He]; [lia|].
  exists s, e. split; [done|]. split; [done|].
  rewrite Forall_lookup in Hptr.
  pose proof (Hptr _ _ Hs). pose proof (Hptr _ _ He).
  assert (s ≤ e); [|lia].
  apply (Sorted_lookup_succ (row_ptr mat) (Z.to_nat r)); [done..|].
  by replace (S (Z.to_nat r)) with (Z.to_nat (r + 1)) by lia.
Qed.

Lemma row_cols_eq mat r s e :
  0 ≤ r → row_ptr mat !! Z.to_nat r = Some s → row_ptr mat !! Z.to_nat (r + 1) = Some e →
  row_cols mat r = take (Z.to_nat (e - s)) (drop (Z.to_nat s) (col_idx mat)).
Proof.
  intros Hr Hs He. unfold row_cols.
  by rewrite (vec_get_lookup _ _ _ Hr Hs), (vec_get_lookup _ (r + 1) e) by (lia || done).
Qed.

Lemma elem_of_slice (l : list Z) (s e c : Z) :
  0 ≤ s →
  c ∈ take (Z.to_nat (e - s)) (drop (Z.to_nat s) l) ↔
  ∃ j, s ≤ j < e ∧ l !! Z.to_nat j = Some c.
Proof.
  intros Hs. rewrite list_elem_of_lookup. split.
  - intros (k & Hk). apply lookup_take_Some in Hk as [Hk Hlt].
    rewrite lookup_drop in Hk. exists (s + Z.of_nat k). split; [lia|].
    by replace (Z.to_nat (s + Z.of_nat k)) with (Z.to_nat s + k)%nat by lia.
  - intros (j & Hj & Hl). exists (Z.to_nat (j - s)).
    apply lookup_take_Some. split; [|lia]. rewrite lookup_drop.
    by replace (Z.to_nat s + Z.to_nat (j - s))%nat with (Z.to_nat j) by lia.
Qed.

Lemma stored_lookup mat r c :
  well_formed mat → 0 ≤ r < rows mat →
  stored mat r c = true ↔
  ∃ s e j, row_ptr mat !! Z.to_nat r = Some s ∧ row_ptr mat !! Z.to_nat (r + 1) = Some e ∧
           s ≤ j < e ∧ col_idx mat !! Z.to_nat j = Some c.
Proof.
  intros Hwf Hr. destruct (well_formed_row mat r Hwf Hr) as (s & e & Hs & He & Hse & Hel).
  unfold stored. rewrite bool_decide_eq_true, (row_cols_eq mat r s e) by (lia || done).
  rewrite elem_of_slice by lia. split.
  - intros (j & ? & ?). by exists s, e, j.
  - intros (s' & e' & j & Hs' & He' & ? & ?). exists j.
    rewrite Hs in Hs'. rewrite He in He'. by simplify_eq.
Qed.

(** ** One row *)

Lemma closed_up_to_any A n r base c s :
  row_inv A n r base s → closed_up_to r r s → closed_up_to r c s.
Proof.
  intros Hinv Hcl v Hv Hvt. destruct (Hcl v Hv Hvt) as (q & Hq & Hvq & [->|Hqt]).
  - exists r. split; [done|]. split; [done|]. right.
    destruct (ri_tags _ _ _ _ _ Hinv r) as (t & Ht & Htb); [pose proof (ri_row _ _ _ _ _ Hinv); lia|].
    by replace t with r in Ht by lia.
  - exists q. auto.
Qed.

Lemma entries_inv mat fuel r base s0 start end_ :
  well_formed mat →
  row_ptr mat !! Z.to_nat r = Some start → row_ptr mat !! Z.to_nat (r + 1) = Some end_ →
  0 ≤ start ≤ end_ → end_ ≤ Z.of_nat (length (col_idx mat)) →
  (Z.to_nat (rows mat) ≤ fuel)%nat →
  row_inv (stored mat) (rows mat) r base s0 → closed_up_to r r s0 →
  ∃ s', for_range start end_ (entry fuel mat r) s0 = Ok s' ∧
        row_inv (stored mat) (rows mat) r base s' ∧ closed_up_to r r s' ∧
        ∀ c, stored mat r c = true → 0 ≤ c < r → tags s' !! Z.to_nat c = Some r.
Proof.
  intros Hwf Hs He Hse Hel Hfuel Hinv0 Hcl0.
  pose proof (ri_row _ _ _ _ _ Hinv0) as Hr.
  set (I := λ (i : Z) (s : etree),
         row_inv (stored mat) (rows mat) r base s ∧ closed_up_to r r s ∧
         ∀ j c, start ≤ j < i → col_idx mat !! Z.to_nat j = Some c → c < r →
                tags s !! Z.to_nat c = Some r).
  destruct (for_range_inv I (entry fuel mat r) start end_ s0) as (s' & Hrun & Hinv & Hcl & Hall).
  - lia.
  - split; [done|]. split; [done|]. intros j c Hj. lia.
  - intros i s Hi (Hinv & Hcl & Hall).
    destruct (lookup_lt_is_Some_2 (col_idx mat) (Z.to_nat i)) as [c Hc]; [lia|].
    assert (0 ≤ c < rows mat) as Hcb.
    { destruct Hwf as (_ & _ & _ & _ & Hcols). rewrite Forall_lookup in Hcols. by eapply Hcols. }
    unfold entry. rewrite (vec_get_lookup _ i c) by (lia || done). simpl.
    case_bool_decide as Hcr.
    + destruct (walk_inv (stored mat) (rows mat) r base fuel c s)
        as (s1 & Hw & Hinv1 & Hcl1 & Hmono & Htc); [done| |lia| |lia|].
      * by eapply closed_up_to_any.
      * intros _. apply Fill_entry; [lia|]. apply stored_lookup; [done..|].
        exists start, end_, i. done.
      * exists s1. split; [done|]. split; [done|]. split; [done|].
        intros j c0 Hj Hc0 Hc0r. destruct (decide (j = i)) as [->|Hji].
        -- rewrite Hc in Hc0. by simplify_eq.
        -- apply Hmono. apply (Hall j); [lia|done..].
    + exists s. split; [done|]. split; [done|]. split; [done|].
      intros j c0 Hj Hc0 Hc0r. destruct (decide (j = i)) as [->|Hji].
      * rewrite Hc in Hc0. simplify_eq. lia.
      * apply (Hall j); [lia|done..].
  - exists s'. split; [done|]. split; [done|]. split; [done|].
    intros c Hst Hc. apply stored_lookup in Hst as (s1 & e1 & j & Hs1 & He1 & Hj & Hjc); [|done..].
    rewrite Hs in Hs1. rewrite He in He1. simplify_eq. apply (Hall j c); [done..|lia].
Qed.

Lemma climb A n r base s :
  row_inv A n r base s → closed_up_to r r s →
  ∀ (d : nat) k v, 0 ≤ k < v → v < r → (Z.to_nat (v - k) ≤ d)%nat →
    tags s !! Z.to_nat k = Some r → Fill A v k → tags s !! Z.to_nat v = Some r.
Proof.
  intros Hinv Hcl. induction d as [|d IH]; intros k v Hk Hv Hd Hkt HF; [lia|].
  destruct (Hcl k) as (p & Hp & Hkp & Hpt); [lia|done|].
  destruct (ri_first _ _ _ _ _ Hinv k p) as [HFp Hmin]; [lia|done|lia|].
  assert (p ≤ v) as Hpv.
  { destruct (decide (p ≤ v)); [done|]. exfalso. apply (Hmin v); [lia|done]. }
  destruct Hpt as [->|Hpt]; [lia|].
  destruct (decide (p = v)) as [->|Hne]; [done|].
  apply (IH p v); [lia|lia|lia|done|].
  by apply (Fill_elim A v p k); [lia|lia|..].
Qed.

Lemma row_complete A n r base s :
  row_inv A n r base s → closed_up_to r r s →
  (∀ c, A r c = true → 0 ≤ c < r → tags s !! Z.to_nat c = Some r) →
  ∀ v, Fill A r v → tags s !! Z.to_nat v = Some r.
Proof.
  intros Hinv Hcl Hent v HF. remember r as i eqn:Hi in HF. revert Hi.
  induction HF as [i j Hj HA|i j k Hk Hji HF1 IH1 HF2 _]; intros ->.
  - by apply Hent.
  - apply (climb A n r base s Hinv Hcl (Z.to_nat (j - k)) k j); [lia|lia|lia| |done].
    by apply IH1.
Qed.

Lemma filter_none {B} (P : B → Prop) `{∀ x, Decision (P x)} (l : list B) :
  (∀ x, x ∈ l → ¬ P x) → filter P l = [].
Proof.
  induction l as [|x l IH]; intros Hno; [done|].
  rewrite filter_cons_False by (apply Hno; by left). apply IH. intros y Hy. apply Hno. by right.
Qed.

Lemma init_row_inv A n r s :
  sweep_inv A n r s → r < n →
  ∃ s', init_row r s = Ok s' ∧ row_inv A n r (fill_count A r) s' ∧ closed_up_to r r s'.
Proof.
  intros [Hr Hlp Hlc Hlt Hpar Hfirst Horph Htags Hnnz] Hrn.
  unfold init_row. rewrite !vec_set_Ok by lia. simpl.
  assert (∀ (l : list Z) x v, 0 ≤ v < r → <[Z.to_nat r := x]> l !! Z.to_nat v = l !! Z.to_nat v)
    as Hother.
  { intros l x v Hv. apply list_lookup_insert_ne. lia. }
  assert (∀ v, 0 ≤ v < r → <[Z.to_nat r := r]> (tags s) !! Z.to_nat v ≠ Some r) as Hfresh.
  { intros v Hv. rewrite Hother by done. destruct (Htags v Hv) as (t & Ht & Htb).
    rewrite Ht. intros [= ?]. lia. }
  eexists. split; [done|]. split.
  - split; simpl.
    + lia.
    + rewrite length_insert. lia.
    + rewrite length_insert. lia.
    + rewrite length_insert. lia.
    + intros v Hv. destruct (decide (v = r)) as [->|Hvr].
      * exists (-1). split; [|by left]. apply list_lookup_insert_eq. lia.
      * rewrite Hother by lia. destruct (Hpar v) as (p & Hp & Hpb); [lia|].
        exists p. split; [done|]. lia.
    + intros v p Hv. destruct (decide (v = r)) as [->|Hvr].
      * rewrite list_lookup_insert_eq by lia. intros [= <-]. done.
      * rewrite Hother by lia. apply Hfirst. lia.
    + intros v i Hv. destruct (decide (v = r)) as [->|Hvr]; [lia|].
      rewrite Hother by lia. apply Horph. lia.
    + intros v Hv. destruct (decide (v = r)) as [->|Hvr].
      * exists r. split; [|lia]. apply list_lookup_insert_eq. lia.
      * rewrite Hother by lia. destruct (Htags v) as (t & Ht & Htb); [lia|].
        exists t. split; [done|]. lia.
    + intros v Hv Hvt. by destruct (Hfresh v Hv).
    + rewrite Hnnz. f_equal. unfold visited_count. simpl.
      rewrite filter_none; [simpl; lia|].
      intros v Hv. apply elem_of_seqZ in Hv. apply Hfresh. lia.
  - intros v Hv Hvt. simpl in Hvt. by destruct (Hfresh v Hv).
Qed.

Lemma row_done A n r s :
  row_inv A n r (fill_count A r) s → closed_up_to r r s →
  (∀ c, A r c = true → 0 ≤ c < r → tags s !! Z.to_nat c = Some r) →
  sweep_inv A n (r + 1) s.
Proof.
  intros Hinv Hcl Hent.
  pose proof (row_complete A n r _ s Hinv Hcl Hent) as Hcomplete.
  destruct Hinv as [Hr Hlp Hlc Hlt Hpar Hfirst Horph Htags Hvis Hnnz].
  split.
  - lia.
  - done.
  - done.
  - done.
  - intros v Hv. destruct (Hpar v) as (p & Hp & Hpb); [lia|]. exists p. split; [done|lia].
  - intros v p Hv. apply Hfirst. lia.
  - intros v i Hv Hp Hi HF. destruct (decide (i = r)) as [->|Hir].
    + destruct (Hvis v) as [_ Hne]; [lia|by apply Hcomplete|]. done.
    + apply (Horph v i); [lia|done|lia|done].
  - intros v Hv. destruct (Htags v) as (t & Ht & Htb); [lia|]. exists t. split; [done|lia].
  - rewrite Hnnz, fill_count_succ by lia. do 2 f_equal.
    unfold visited_count, row_nnz. do 2 f_equal.
    apply filter_ext_in. intros v Hv. apply elem_of_seqZ in Hv.
    rewrite Is_true_true, fillb_Fill. split.
    + intros Hvt. apply Hvis; [lia|done].
    + apply Hcomplete.
Qed.

(** ** The whole sweep *)

Lemma row_inv_step mat fuel r s :
  well_formed mat → (Z.to_nat (rows mat) ≤ fuel)%nat → r < rows mat →
  sweep_inv (stored mat) (rows mat) r s →
  ∃ s', row fuel mat r s = Ok s' ∧ sweep_inv (stored mat) (rows mat) (r + 1) s'.
Proof.
  intros Hwf Hfuel Hrn Hinv. pose proof (si_row _ _ _ _ Hinv) as Hr.
  destruct (init_row_inv _ _ _ _ Hinv Hrn) as (s1 & Hinit & Hinv1 & Hcl1).
  destruct (well_formed_row mat r Hwf) as (st & en & Hst & Hen & Hse & Hel); [lia|].
  destruct (entries_inv mat fuel r (fill_count (stored mat) r) s1 st en)
    as (s' & Hrun & Hinv' & Hcl' & Hent); [done..|].
  exists s'. split.
  - unfold row. rewrite Hinit. simpl.
    rewrite (vec_get_lookup _ r st), (vec_get_lookup _ (r + 1) en) by (lia || done). done.
  - by apply row_done.
Qed.

Lemma start_state_inv A n :
  0 ≤ n → ∃ s0, start_state n = Ok s0 ∧ sweep_inv A n 0 s0.
Proof.
  intros Hn. unfold start_state, vec_make. rewrite bool_decide_eq_true_2 by done. simpl.
  eexists. split; [done|]. split; simpl.
  - lia.
  - rewrite length_replicate. lia.
  - rewrite length_replicate. lia.
  - rewrite length_replicate. lia.
  - intros v Hv. lia.
  - intros v p Hv. lia.
  - intros v i Hv. lia.
  - intros v Hv. lia.
  - done.
Qed.

Lemma sweep_correct mat fuel :
  well_formed mat → (Z.to_nat (rows mat) ≤ fuel)%nat →
  ∃ s, sweep fuel mat = Ok s ∧ sweep_inv (stored mat) (rows mat) (rows mat) s.
Proof.
  intros Hwf Hfuel. pose proof Hwf as (Hn & _).
  destruct (start_state_inv (stored mat) (rows mat) Hn) as (s0 & Hs0 & Hinv0).
  unfold sweep. rewrite Hs0. simpl.
  apply (for_range_inv (sweep_inv (stored mat) (rows mat))); [done|done|].
  intros r s Hr Hinv. apply row_inv_step; [done|done|lia|done].
Qed.

(** On well-formed storage the counter returns, cut to an [int], twice the
    number of structural nonzeros below the diagonal plus the order. *)
Lemma count_nnz_fillin_exact mat fuel :
  well_formed mat → (Z.to_nat (rows mat) ≤ fuel)%nat →
  EliminationTree.count_nnz_fillin fuel mat = Ok (wrap_int (exact_fill mat)).
Proof.
  intros Hwf Hfuel. destruct (sweep_correct mat fuel Hwf Hfuel) as (s & Hs & Hinv).
  unfold EliminationTree.count_nnz_fillin, exact_fill. rewrite Hs. simpl. f_equal.
  by rewrite (si_nnz _ _ _ _ Hinv), wrap_int_mul_r, wrap_int_add_l.
Qed.

(** ** The fuel only bounds the walks *)

Lemma walk_fuel_mono r : ∀ fuel fuel' c s s',
  walk fuel r c s = Ok s' → (fuel ≤ fuel')%nat → walk fuel' r c s = Ok s'.
Proof.
  induction fuel as [|fuel IH]; intros fuel' c s s' Hwalk Hle; [done|].
  destruct fuel' as [|fuel']; [lia|]. simpl in *.
  destruct (vec_get (tags s) c) as [t|]; simpl in *; [|done].
  case_bool_decide; [done|].
  destruct (visit r c s) as [[s1 c1]|]; simpl in *; [|done].
  apply (IH fuel'); [done|lia].
Qed.

Lemma for_count_ext_Ok {St} (body body' : Z → St → result St) k :
  (∀ i t t', body i t = Ok t' → body' i t = Ok t') →
  ∀ lo s s', for_count k lo body s = Ok s' → for_count k lo body' s = Ok s'.
Proof.
  intros Hext. induction k as [|k IH]; intros lo s s'; simpl; [done|].
  destruct (body lo s) as [t|] eqn:Hb; simpl; [|done].
  rewrite (Hext _ _ _ Hb). simpl. apply IH.
Qed.

Lemma count_nnz_fillin_fuel_mono mat fuel fuel' v :
  EliminationTree.count_nnz_fillin fuel mat = Ok v → (fuel ≤ fuel')%nat →
  EliminationTree.count_nnz_fillin fuel' mat = Ok v.
Proof.
  intros Hrun Hle. unfold EliminationTree.count_nnz_fillin, sweep in *.
  destruct (start_state (rows mat)) as [s0|]; simpl in *; [|done].
  destruct (for_range 0 (rows mat) (row fuel mat) s0) as [s|] eqn:Hsweep; simpl in Hrun; [|done].
  unfold for_range in *.
  assert (∀ r t t', row fuel mat r t = Ok t' → row fuel' mat r t = Ok t') as Hrows;
    [|by rewrite (for_count_ext_Ok (row fuel mat) (row fuel' mat) _ Hrows 0 s0 s Hsweep)].
  intros r t t' Hrow. unfold row in *.
  destruct (init_row r t) as [t1|]; simpl in *; [|done].
  destruct (vec_get (row_ptr mat) r) as [start|]; simpl in *; [|done].
  destruct (vec_get (row_ptr mat) (r + 1)) as [end_|]; simpl in *; [|done].
  unfold for_range in *.
  apply (for_count_ext_Ok (entry fuel mat r) (entry fuel' mat r)); [|done].
  intros i u u' Hentry. unfold entry in *.
  destruct (vec_get (col_idx mat) i) as [c|]; simpl in *; [|done].
  case_bool_decide; [|done]. by apply (walk_fuel_mono r fuel).
Qed.

(** ** Termination and sign of the result *)

Lemma row_nnz_bounds A i : 0 ≤ row_nnz A i.
Proof. unfold row_nnz. lia. Qed.

Lemma fill_count_nonneg A n : 0 ≤ fill_count A n.
Proof.
  unfold fill_count. induction (seqZ 0 n) as [|x l IH]; simpl; [done|].
  pose proof (row_nnz_bounds A x). lia.
Qed.

Lemma well_formed_path4 : well_formed path4.
Proof. refine (bool_decide_unpack _ _). vm_compute. exact I. Qed.



(** The scenario of the specification: the path graph on four vertices has
    the count [4 + 2 * 3]. *)
Example path4_count : EliminationTree.count_nnz_fillin 4 path4 = Ok 10.
Proof. reflexivity. Qed.

(** ** Dense patterns *)

Lemma filter_all {B} (P : B → Prop) `{∀ x, Decision (P x)} (l : list B) :
  (∀ x, x ∈ l → P x) → filter P l = l.
Proof.
  induction l as [|x l IH]; intros Hall; [done|].
  rewrite filter_cons_True by (apply Hall; by left). f_equal. apply IH.
  intros y Hy. apply Hall. by right.
Qed.







(** ** The permutation validator *)

Import Validator.

Lemma cast_small T z : 0 ≤ z ≤ it_max T → cast T z = z.
Proof.
  unfold it_max, cast. destruct (it_signed T).
  - intros Hz. destruct (decide (0 ≤ it_bits T - 1)) as [Hb|Hb].
    + replace (it_bits T) with (it_bits T - 1 + 1) at 2 by lia.
      rewrite Z.pow_add_r, Z.pow_1_r by lia.
      rewrite Z.mod_small by lia. lia.
    + rewrite (Z.pow_neg_r 2 (it_bits T - 1)) in Hz by lia. lia.
  - intros Hz. apply Z.mod_small. lia.
Qed.

Lemma check_from_spec T (v : list Z) :
  Z.of_nat (length v) ≤ it_max T →
  ∀ fuel i, 0 ≤ i ≤ Z.of_nat (length v) → (Z.to_nat (Z.of_nat (length v) - i) < fuel)%nat →
  ∃ b, check_from T fuel i v = Ok b ∧
       (b = true ↔ ∀ j, i ≤ j < Z.of_nat (length v) → v !! Z.to_nat j = Some j).
Proof.
  intros Hmax. induction fuel as [|fuel IH]; intros i Hi Hfuel; [lia|].
  simpl. rewrite (cast_small T (Z.of_nat (length v))) by lia.
  case_bool_decide as Hlt.
  - destruct (lookup_lt_is_Some_2 v (Z.to_nat i)) as [x Hx]; [lia|].
    rewrite (vec_get_lookup v i x) by (lia || done). simpl.
    case_bool_decide as Hix.
    + exists false. split; [done|]. split; [done|]. intros Hall.
      specialize (Hall i ltac:(lia)). rewrite Hx in Hall. by simplify_eq.
    + assert (i = x) as <- by (by destruct (decide (i = x))).
      rewrite cast_small by lia.
      destruct (IH (i + 1)) as (b & Hb & Hbspec); [lia|lia|].
      exists b. split; [done|]. rewrite Hbspec. split.
      * intros Hall j Hj. destruct (decide (j = i)) as [->|Hne]; [done|]. apply Hall. lia.
      * intros Hall j Hj. apply Hall. lia.
  - exists true. split; [done|]. split; [|done]. intros _ j Hj. lia.
Qed.

Lemma lookup_all_seqZ (v : list Z) :
  (∀ j, 0 ≤ j < Z.of_nat (length v) → v !! Z.to_nat j = Some j) ↔
  v = seqZ 0 (Z.of_nat (length v)).
Proof.
  split.
  - intros Hall. apply list_eq. intros k.
    destruct (decide (k < length v)%nat) as [Hk|Hk].
    + rewrite lookup_seqZ_lt by lia. specialize (Hall (Z.of_nat k) ltac:(lia)).
      rewrite Nat2Z.id in Hall. by rewrite Hall.
    + rewrite lookup_seqZ_ge by lia. apply lookup_ge_None. lia.
  - intros Hv j Hj. rewrite Hv at 1. rewrite lookup_seqZ_lt by lia. f_equal. lia.
Qed.

Lemma Sorted_seqZ m n : Sorted Z.le (seqZ m n).
Proof.
  destruct (decide (0 ≤ n)) as [Hn|Hn]; [|rewrite seqZ_nil by lia; constructor].
  rewrite <- (Z2Nat.id n) by done. generalize (Z.to_nat n). clear. intros k. revert m.
  induction k as [|k IH]; intros m; [constructor|].
  rewrite seqZ_cons by lia. replace (Z.pred (Z.of_nat (S k))) with (Z.of_nat k) by lia.
  constructor; [apply IH|].
  destruct k as [|k]; [constructor|]. rewrite seqZ_cons by lia. constructor. lia.
Qed.

Lemma sort_seqZ_iff (a : list Z) n : sort a = seqZ 0 n ↔ a ≡ₚ seqZ 0 n.
Proof.
  unfold sort. split.
  - intros <-. symmetry. apply merge_sort_Permutation.
  - intros Hp. apply (Sorted_unique Z.le).
    + apply Sorted_merge_sort, _.
    + apply Sorted_seqZ.
    + by rewrite merge_sort_Permutation.
Qed.

Lemma call_Ok T size (a : list Z) :
  0 ≤ size ≤ it_max T → Z.of_nat (length a) = size →
  ∃ b, call T size a = Ok (b, {| h_permute := a; permute := sort a |}) ∧
       (b = true ↔ sort a = seqZ 0 size).
Proof.
  intros Hsize Hlen. unfold call, is_unique_permutation, vec_make, memcpy. simpl.
  rewrite bool_decide_eq_true_2 by lia. simpl.
  rewrite bool_decide_eq_true_2 by (rewrite length_replicate; lia). simpl.
  rewrite take_ge, drop_ge by (rewrite ?length_replicate; lia). rewrite app_nil_r.
  assert (length (sort a) = length a) as Hls.
  { unfold sort. by rewrite merge_sort_Permutation. }
  destruct (check_from_spec T (sort a)) with (fuel := S (length (sort a))) (i := 0)
    as (b & Hb & Hbspec); [lia|lia|lia|].
  simpl in Hb. rewrite Hb. simpl. exists b. split; [done|].
  rewrite Hbspec, lookup_all_seqZ. by rewrite Hls, Hlen.
Qed.

(** C2 (amended): for an array of exactly [size] elements, [size]
    representable in the element type, the validator returns true iff the
    sorted copy is [[0; ..; size-1]], i.e. iff the array is a bijection on
    [[0, size)]; it returns false on a duplicate and on a value out of range. *)
Theorem validator_accepts_exactly_permutations (T : int_type) (size : Z) (a : list Z) :
  0 ≤ size ≤ it_max T → Z.of_nat (length a) = size →
  ∃ b m, call T size a = Ok (b, m) ∧
         (b = true ↔ sort a = seqZ 0 size) ∧
         (b = true ↔ a ≡ₚ seqZ 0 size) ∧
         (¬ NoDup a → b = false) ∧
         ((∃ x, x ∈ a ∧ ¬ (0 ≤ x < size)) → b = false).
Proof.
  intros Hsize Hlen. destruct (call_Ok T size a Hsize Hlen) as (b & Hcall & Hb).
  exists b, {| h_permute := a; permute := sort a |}.
  assert (b = true ↔ a ≡ₚ seqZ 0 size) as Hperm by (by rewrite Hb, sort_seqZ_iff).
  split; [done|]. split; [done|]. split; [done|]. split.
  - intros Hdup. destruct b; [|done]. destruct Hdup.
    rewrite (proj1 Hperm eq_refl). apply NoDup_seqZ.
  - intros (x & Hx & Hout). destruct b; [|done]. destruct Hout.
    rewrite (proj1 Hperm eq_refl) in Hx. apply elem_of_seqZ in Hx. lia.
Qed.

Lemma validator_accepts_exactly_permutations_witness :
  ∃ b m, call int32_t 4 [3; 1; 0; 2] = Ok (b, m) ∧
         (b = true ↔ sort [3; 1; 0; 2] = seqZ 0 4) ∧
         (b = true ↔ [3; 1; 0; 2] ≡ₚ seqZ 0 4) ∧
         (¬ NoDup [3; 1; 0; 2] → b = false) ∧
         ((∃ x, x ∈ [3; 1; 0; 2] ∧ ¬ (0 ≤ x < 4)) → b = false).
Proof.
  apply (validator_accepts_exactly_permutations int32_t 4 [3; 1; 0; 2]).
  - vm_compute. split; discriminate.
  - reflexivity.
Defined.

(** C2, as stated, fails: the function gets a pointer and [size] only, and an
    array of another length is not rejected.  Of the four elements below it
    reads the first three, which are a permutation, and returns true. *)
Lemma validator_accepts_longer_array :
  Z.of_nat (length [0; 1; 2; 7]) ≠ 3 ∧
  call int32_t 3 [0; 1; 2; 7]
    = Ok (true, {| h_permute := [0; 1; 2; 7]; permute := [0; 1; 2] |}).
Proof. split; [discriminate|]. vm_compute. reflexivity. Qed.

(** The loop bound [T(permute.size())] wraps when [size] does not fit [T]:
    256 zeros pass as a permutation in [uint8_t]. *)
Lemma validator_wraps_size :
  ∃ m, call uint8_t 256 (replicate 256 0) = Ok (true, m).
Proof. eexists. vm_compute. reflexivity. Qed.

(** ** The factorization oracle *)

Import Oracle.

Lemma for_count_preserve {St} (P : St → Prop) (body : Z → St → result St) k :
  (∀ i t t', body i t = Ok t' → P t → P t') →
  ∀ lo s s', for_count k lo body s = Ok s' → P s → P s'.
Proof.
  intros Hbody. induction k as [|k IH]; intros lo s s'; simpl.
  - by intros [= ->].
  - destruct (body lo s) as [t|] eqn:Hb; simpl; [|done].
    intros Hrun Hs. eapply IH; [done|]. by eapply Hbody.
Qed.

Lemma copy_loop (hp : list Z) n :
  0 ≤ n ≤ Z.of_nat (length hp) →
  for_range 0 n copy_index {| h_permute := hp; indices := replicate (Z.to_nat n) 0 |}
  = Ok {| h_permute := hp; indices := take (Z.to_nat n) hp |}.
Proof.
  intros Hn.
  set (I := λ (i : Z) (s : perm_state),
         h_permute s = hp ∧
         indices s = take (Z.to_nat i) hp ++ replicate (Z.to_nat (n - i)) 0).
  destruct (for_range_inv I copy_index 0 n {| h_permute := hp; indices := replicate (Z.to_nat n) 0 |})
    as ([hp' ix'] & Hrun & Hhp & Hix); [lia| | |].
  - split; [done|]. simpl. by rewrite Z.sub_0_r.
  - intros i [hp0 ix0] Hi [Hhp Hix]. simpl in Hhp, Hix. subst hp0.
    destruct (lookup_lt_is_Some_2 hp (Z.to_nat i)) as [x Hx]; [lia|].
    unfold copy_index. simpl. rewrite (vec_get_lookup hp i x) by (lia || done). simpl.
    assert (length (take (Z.to_nat i) hp) = Z.to_nat i) as Hlt by (rewrite length_take; lia).
    rewrite vec_set_Ok by (rewrite Hix, length_app, Hlt, length_replicate; lia). simpl.
    eexists. split; [done|]. split; [done|]. simpl. rewrite Hix.
    rewrite insert_app_r_alt by lia. rewrite Hlt, Nat.sub_diag.
    replace (Z.to_nat (n - i)) with (S (Z.to_nat (n - (i + 1)))) by lia. simpl.
    replace (Z.to_nat (i + 1)) with (S (Z.to_nat i)) by lia.
    rewrite (take_S_r hp (Z.to_nat i) x) by done. by rewrite <- app_assoc.
  - simpl in Hhp, Hix. rewrite Hrun. subst hp'. rewrite Hix.
    rewrite Z.sub_diag. simpl. by rewrite app_nil_r.
Qed.

Section OracleProofs.

Context {V : Type} (compute : EigenMat V → SimplicialLLT V).

Lemma count_nnz_fillin_unfold ndebug (M : EigenMat V) (hp : list Z) st (w : world V) :
  Z.of_nat (length hp) = e_rows M →
  Oracle.count_nnz_fillin compute ndebug M hp st w =
    A ← permute_symm_to_fullsymm M hp;
    Ok (after_export compute A hp (exportToPlainText A (st +:+ ".txt") w)).
Proof.
  intros Hlen. unfold Oracle.count_nnz_fillin.
  rewrite (bool_decide_eq_true_2 _ Hlen), andb_false_r.
  unfold vec_make. rewrite bool_decide_eq_true_2 by lia. simpl.
  rewrite copy_loop by lia. simpl.
  rewrite take_ge by lia.
  destruct (permute_symm_to_fullsymm M hp) as [A|]; simpl; [|done].
  unfold after_export. by case_bool_decide.
Qed.

End OracleProofs.

(** ** Patterns of Eigen matrices and structural factors *)

Section PatternProofs.

Context {V : Type}.

Lemma Fill_ext A B :
  (∀ i j, 0 ≤ j < i → A i j = B i j) → ∀ i j, Fill A i j → Fill B i j.
Proof.
  intros Hext i j HF. induction HF as [i j Hj HA|i j k Hk Hji _ IH1 _ IH2].
  - apply Fill_entry; [done|]. by rewrite <- Hext.
  - by apply (Fill_elim B i j k).
Qed.

Lemma fillb_ext A B :
  (∀ i j, 0 ≤ j < i → A i j = B i j) → ∀ i j, fillb A i j = fillb B i j.
Proof.
  intros Hext i j. apply eq_true_iff_eq. rewrite !fillb_Fill.
  split; apply Fill_ext; [done|]. intros. symmetry. by apply Hext.
Qed.

Lemma fill_count_ext A B n :
  (∀ i j, 0 ≤ j < i → A i j = B i j) → fill_count A n = fill_count B n.
Proof.
  intros Hext. unfold fill_count.
  assert (∀ i, row_nnz A i = row_nnz B i) as Hrow.
  { intros i. unfold row_nnz. do 2 f_equal. apply filter_ext_in. intros j _.
    by rewrite (fillb_ext A B Hext). }
  induction (seqZ 0 n) as [|x l IH]; simpl; [done|]. by rewrite Hrow, IH.
Qed.

Lemma elem_of_factor_positions A n i j :
  (i, j) ∈ factor_positions A n ↔ 0 ≤ j ∧ i < n ∧ (j = i ∨ Fill A i j).
Proof.
  unfold factor_positions. rewrite list_elem_of_bind. split.
  - intros (r & Hin & Hr). apply elem_of_seqZ in Hr.
    apply elem_of_app in Hin as [Hin|Hin].
    + apply list_elem_of_fmap in Hin as (k & [= -> ->] & Hk).
      apply list_elem_of_filter in Hk as [Hk Hk']. apply elem_of_seqZ in Hk'.
      apply Is_true_true, fillb_Fill in Hk. split; [lia|]. split; [lia|by right].
    + apply list_elem_of_singleton in Hin as [= -> ->]. split; [lia|]. split; [lia|by left].
  - intros (Hj & Hi & [->|HF]).
    + exists i. split; [|apply elem_of_seqZ; lia]. apply elem_of_app. right.
      by apply list_elem_of_singleton.
    + pose proof (Fill_bounds _ _ _ HF). exists i. split; [|apply elem_of_seqZ; lia].
      apply elem_of_app. left. apply list_elem_of_fmap. exists j. split; [done|].
      apply list_elem_of_filter. split; [by apply Is_true_true, fillb_Fill|].
      apply elem_of_seqZ. lia.
Qed.

Lemma NoDup_factor_positions A n : NoDup (factor_positions A n).
Proof.
  unfold factor_positions. apply NoDup_bind.
  - intros r1 r2 [i j] _ _ H1 H2.
    assert (∀ r, (i, j) ∈ ((λ j, (r, j)) <$> filter (λ j, fillb A r j) (seqZ 0 r)) ++ [(r, r)]
                 → i = r) as Hrow.
    { intros r Hin. apply elem_of_app in Hin as [Hin|Hin].
      - by apply list_elem_of_fmap in Hin as (k & [= -> ->] & Hk).
      - by apply list_elem_of_singleton in Hin as [= -> ->]. }
    by rewrite <- (Hrow r1 H1), <- (Hrow r2 H2).
  - intros r Hr. apply NoDup_app. split; [|split].
    + apply (NoDup_fmap_2 _). apply NoDup_filter, NoDup_seqZ.
    + intros [i j] Hin Hd. apply list_elem_of_singleton in Hd as [= -> ->].
      apply list_elem_of_fmap in Hin as (k & [= ->] & Hk).
      apply list_elem_of_filter in Hk as [_ Hk]. apply elem_of_seqZ in Hk. lia.
    + apply NoDup_singleton.
  - apply NoDup_seqZ.
Qed.

Lemma length_factor_positions A n :
  0 ≤ n → Z.of_nat (length (factor_positions A n)) = n + fill_count A n.
Proof.
  intros Hn. unfold factor_positions, fill_count.
  transitivity (Z.of_nat (length (seqZ 0 n)) + foldr (λ i acc, row_nnz A i + acc) 0 (seqZ 0 n));
    [|rewrite length_seqZ; lia].
  induction (seqZ 0 n) as [|r l IH]; [done|].
  rewrite bind_cons, !length_app, length_fmap, !Nat2Z.inj_add, IH.
  cbn [foldr length]. unfold row_nnz at 2. lia.
Qed.

Lemma structural_nonZeros (A L : EigenMat V) :
  0 ≤ e_rows A → structural_factor A L →
  nonZeros L = e_rows A + fill_count (stored_at A) (e_rows A).
Proof.
  intros Hn (_ & Hnd & Hpos).
  rewrite <- length_factor_positions by done. unfold nonZeros.
  rewrite <- (length_fmap fst (e_entries L)). f_equal.
  apply Permutation_length, NoDup_Permutation.
  - done.
  - apply NoDup_factor_positions.
  - intros [i j]. by rewrite elem_of_factor_positions.
Qed.

Lemma symbolic_factor_structural (one : V) (A : EigenMat V) :
  structural_factor A (symbolic_factor one A).
Proof.
  assert (positions (symbolic_factor one A) = factor_positions (stored_at A) (e_rows A)) as Hpos.
  { unfold positions, symbolic_factor. simpl. rewrite <- list_fmap_compose.
    induction (factor_positions _ _) as [|p l IH]; simpl; [done|]. by f_equal. }
  split; [done|]. rewrite Hpos. split; [apply NoDup_factor_positions|].
  intros i j. apply elem_of_factor_positions.
Qed.

(** The pattern of the permuted matrix. *)
Lemma place_all_positions n perm (es out : list (Z * Z * V)) :
  place_all n perm es = Ok out →
  ∀ i j, (i, j) ∈ fst <$> out ↔
    ∃ r c v, (r, c, v) ∈ es ∧ c ≤ r ∧
             ((vec_get perm r = Ok i ∧ vec_get perm c = Ok j) ∨
              (vec_get perm r = Ok j ∧ vec_get perm c = Ok i)).
Proof.
  revert out. induction es as [|[[r c] v] es IH]; intros out.
  - intros [= <-] i j. simpl. split.
    + intros Hin. by apply elem_of_nil in Hin.
    + intros (? & ? & ? & Hin & _). by apply elem_of_nil in Hin.
  - change (place_all n perm ((r, c, v) :: es))
      with (l ← place n perm (r, c, v); ls ← place_all n perm es; Ok (l ++ ls)).
    destruct (place n perm (r, c, v)) as [l|] eqn:Hpl; simpl; [|done].
    destruct (place_all n perm es) as [ls|] eqn:Hpa; simpl; [|done].
    intros [= <-] i j. rewrite fmap_app, elem_of_app, (IH ls eq_refl).
    assert ((i, j) ∈ fst <$> l ↔
            c ≤ r ∧ ((vec_get perm r = Ok i ∧ vec_get perm c = Ok j) ∨
                     (vec_get perm r = Ok j ∧ vec_get perm c = Ok i))) as Hl.
    { unfold place, new_index in Hpl. clear IH Hpa.
      case_bool_decide as Hlt; [|case_bool_decide as Heq].
      - destruct (vec_get perm r) as [pr|]; simpl in Hpl; [|done].
        case_bool_decide; simpl in Hpl; [|done].
        destruct (vec_get perm c) as [pc|]; simpl in Hpl; [|done].
        case_bool_decide; simpl in Hpl; [|done]. injection Hpl as <-. simpl.
        rewrite !elem_of_cons, elem_of_nil. split.
        + intros [[= -> ->]|[[= -> ->]|[]]]; (split; [lia|auto]).
        + intros [_ [[[= ->] [= ->]]|[[= ->] [= ->]]]]; auto.
      - subst c. destruct (vec_get perm r) as [pr|]; simpl in Hpl; [|done].
        case_bool_decide; simpl in Hpl; [|done]. injection Hpl as <-. simpl.
        rewrite list_elem_of_singleton. split.
        + intros [= -> ->]. split; [lia|auto].
        + intros [_ [[[= ->] [= ->]]|[[= ->] [= ->]]]]; auto.
      - injection Hpl as <-. simpl. split; [by intros ?%elem_of_nil|]. intros [? _]. lia. }
    rewrite Hl. split.
    + intros [[Hcr Hp]|(r' & c' & v' & Hin & Hcr & Hp)].
      * exists r, c, v. split; [by left|done].
      * exists r', c', v'. split; [by right|done].
    + intros (r' & c' & v' & Hin & Hcr & Hp). apply elem_of_cons in Hin as [[= -> -> ->]|Hin].
      * by left.
      * right. by exists r', c', v'.
Qed.

End PatternProofs.

(** ** The two paths agree *)

Lemma row_cols_outside mat r :
  well_formed mat → ¬ (0 ≤ r < rows mat) → row_cols mat r = [].
Proof.
  intros (Hn & Hlen & _) Hr. unfold row_cols, vec_get.
  case_bool_decide; [|done].
  destruct (row_ptr mat !! Z.to_nat r) as [s|]; [|done].
  rewrite bool_decide_eq_true_2 by lia.
  rewrite (lookup_ge_None_2 (row_ptr mat) (Z.to_nat (r + 1))); [done|lia].
Qed.

Lemma stored_csr_positions mat i j :
  well_formed mat → stored mat i j = true ↔ (i, j) ∈ csr_positions mat.
Proof.
  intros Hwf. unfold stored, csr_positions.
  rewrite bool_decide_eq_true, list_elem_of_bind. split.
  - intros Hj. exists i. split; [by apply list_elem_of_fmap_2|].
    apply elem_of_seqZ. destruct (decide (0 ≤ i < rows mat)); [lia|].
    rewrite row_cols_outside in Hj by done. by apply elem_of_nil in Hj.
  - intros (r & Hin & _). by apply list_elem_of_fmap in Hin as (k & [= -> ->] & Hk).
Qed.

Section Equivalence.

Context {V : Type} (compute : EigenMat V → SimplicialLLT V).

Lemma relabeled_by_positions (M A : EigenMat V) (P : list Z) (mat : SparseMatrix) :
  well_formed mat → rows mat = e_rows M →
  permute_symm_to_fullsymm M P = Ok A →
  (∀ p, p ∈ csr_positions mat ↔ p ∈ positions A) →
  relabeled M P mat.
Proof.
  intros Hwf Hrows Hperm Hsame. split; [done|]. intros i j.
  rewrite (stored_csr_positions mat i j Hwf), Hsame.
  unfold permute_symm_to_fullsymm in Hperm.
  destruct (place_all (e_rows M) P (e_entries M)) as [out|] eqn:Hpl; simpl in Hperm; [|done].
  injection Hperm as <-. unfold positions. simpl.
  by apply (place_all_positions (e_rows M) P).
Qed.

Lemma relabeled_stored (M A : EigenMat V) (P : list Z) (mat : SparseMatrix) :
  relabeled M P mat → permute_symm_to_fullsymm M P = Ok A →
  ∀ i j, stored mat i j = stored_at A i j.
Proof.
  intros [_ Hrel] Hperm i j. apply eq_true_iff_eq. rewrite Hrel.
  unfold stored_at. rewrite bool_decide_eq_true.
  unfold permute_symm_to_fullsymm in Hperm.
  destruct (place_all (e_rows M) P (e_entries M)) as [out|] eqn:Hpl; simpl in Hperm; [|done].
  injection Hperm as <-. unfold positions. simpl. symmetry.
  by apply (place_all_positions (e_rows M) P).
Qed.

Lemma permuted_rows (M A : EigenMat V) (P : list Z) :
  permute_symm_to_fullsymm M P = Ok A → e_rows A = e_rows M.
Proof.
  unfold permute_symm_to_fullsymm.
  destruct (place_all (e_rows M) P (e_entries M)) as [out|]; simpl; [|done].
  by intros [= <-].
Qed.

(** The value the oracle returns when the factorization succeeds with the
    structural factor. *)
Lemma after_export_success (A : EigenMat V) hp w1 :
  computes_structural_factor compute → 0 ≤ e_rows A → info (compute A) = Success →
  after_export compute A hp w1 =
    (wrap_int (2 * fill_count (stored_at A) (e_rows A) + e_rows A), hp, factorized w1).
Proof.
  intros Hsf Hn Hinfo. unfold after_export.
  rewrite bool_decide_eq_false_2 by (by rewrite Hinfo; intros []).
  pose proof (Hsf A Hinfo) as HL. pose proof HL as (Hrows & _).
  rewrite (structural_nonZeros A _ Hn HL), Hrows.
  do 2 f_equal.
  rewrite !wrap_int_index, wrap_int_mul_r, wrap_int_add_l. f_equal. lia.
Qed.

Lemma after_export_failure (A : EigenMat V) hp w1 :
  info (compute A) ≠ Success →
  after_export compute A hp w1 = (-1, hp, log_error (info (compute A)) (factorized w1)).
Proof. intros Hinfo. unfold after_export. by rewrite bool_decide_eq_true_2. Qed.

(** C1: let [M] store the lower triangle of a symmetric matrix, [P] be an
    array of its order and [mat] the matrix relabeled by [P] in full CSR.
    Given that the external factorization returns structural factors, if the
    oracle returns a nonnegative value on [M] and [P], the elimination-tree
    counter returns the same value on [mat]. *)
Theorem cross_path_equivalence (ndebug : bool) (M : EigenMat V) (P : list Z)
    (st : string) (w : world V) (mat : SparseMatrix) (fuel : nat)
    (v : Z) (P' : list Z) (w' : world V) :
  computes_structural_factor compute →
  Z.of_nat (length P) = e_rows M →
  well_formed mat → relabeled M P mat →
  Oracle.count_nnz_fillin compute ndebug M P st w = Ok (v, P', w') → 0 ≤ v →
  (Z.to_nat (rows mat) ≤ fuel)%nat →
  EliminationTree.count_nnz_fillin fuel mat = Ok v.
Proof.
  intros Hsf Hlen Hwf Hrel Hrun Hv Hfuel.
  rewrite count_nnz_fillin_unfold in Hrun by done.
  destruct (permute_symm_to_fullsymm M P) as [A|] eqn:Hperm; simpl in Hrun; [|done].
  pose proof (permuted_rows M A P Hperm) as HrA.
  destruct (decide (info (compute A) = Success)) as [Hinfo|Hinfo].
  - rewrite after_export_success in Hrun by (done || lia). injection Hrun as <- <- <-.
    rewrite (count_nnz_fillin_exact mat fuel Hwf Hfuel). unfold exact_fill.
    pose proof Hrel as [Hrows _]. rewrite Hrows, HrA. do 4 f_equal.
    apply fill_count_ext. intros i j _.
    by apply (relabeled_stored M A P mat).
  - rewrite after_export_failure in Hrun by done. injection Hrun as <- _ _. lia.
Qed.

End Equivalence.

(** ** The worked instance *)

Lemma same_elements {B} `{EqDecision B} (l1 l2 : list B) :
  Forall (λ p, p ∈ l2) l1 ∧ Forall (λ p, p ∈ l1) l2 → ∀ p, p ∈ l1 ↔ p ∈ l2.
Proof. rewrite !Forall_forall. intros [H1 H2] p. split; auto. Qed.

Lemma symbolic_llt_structural : computes_structural_factor symbolic_llt.
Proof. intros A _. apply symbolic_factor_structural. Qed.

Lemma well_formed_mat3 : well_formed mat3.
Proof. refine (bool_decide_unpack _ _). vm_compute. exact I. Qed.

Lemma relabeled_mat3 : relabeled M3 P3 mat3.
Proof.
  eapply relabeled_by_positions.
  - exact well_formed_mat3.
  - reflexivity.
  - vm_compute. reflexivity.
  - apply same_elements. refine (bool_decide_unpack _ _). vm_compute. exact I.
Qed.

Lemma cross_path_equivalence_witness :
  EliminationTree.count_nnz_fillin 3 mat3 = Ok 9.
Proof.
  eapply (cross_path_equivalence symbolic_llt false M3 P3 "m" world_rw mat3 3 9).
  - exact symbolic_llt_structural.
  - reflexivity.
  - exact well_formed_mat3.
  - exact relabeled_mat3.
  - vm_compute. reflexivity.
  - lia.
  - simpl. lia.
Defined.

(** ** What the oracle returns and what it leaves alone *)

Section OracleClaims.

Context {V : Type} (compute : EigenMat V → SimplicialLLT V).


(** C4: when the factorization of the permuted matrix fails, the oracle
    returns [-1]; it has called the factorization once, and what it has added
    to the diagnostics ends with the one message that names the failure code,
    preceded by nothing but the export's complaint, if any. *)
Theorem oracle_failure_sentinel (ndebug : bool) (M A : EigenMat V) (hp : list Z)
    (st : string) (w : world V) :
  Z.of_nat (length hp) = e_rows M →
  permute_symm_to_fullsymm M hp = Ok A →
  info (compute A) ≠ Success →
  ∃ w' pre,
    Oracle.count_nnz_fillin compute ndebug M hp st w = Ok (-1, hp, w') ∧
    diagnostics w' = diagnostics w ++ pre ++ [CholeskyFailed (info (compute A))] ∧
    (pre = [] ∨ pre = [CannotOpen (st +:+ ".txt")]) ∧
    factorizations w' = S (factorizations w).
Proof.
  intros Hlen Hperm Hinfo.
  rewrite count_nnz_fillin_unfold, Hperm by done. simpl.
  rewrite after_export_failure by done.
  eexists _, (if can_open w (st +:+ ".txt") then [] else [CannotOpen (st +:+ ".txt")]).
  split; [done|]. unfold exportToPlainText.
  destruct (can_open w (st +:+ ".txt")); simpl.
  - split; [done|]. split; [by left|done].
  - split; [by rewrite <- app_assoc|]. split; [by right|done].
Qed.

(** C8: when the file cannot be opened, the export adds one diagnostic and
    writes nothing, and the oracle returns the integer it returns when the
    file can be opened. *)
Theorem export_failure_is_harmless (ndebug : bool) (M A : EigenMat V) (hp : list Z)
    (st : string) (w w' : world V) :
  can_open w (st +:+ ".txt") = false →
  can_open w' (st +:+ ".txt") = true →
  files (exportToPlainText A (st +:+ ".txt") w) = files w ∧
  diagnostics (exportToPlainText A (st +:+ ".txt") w)
    = diagnostics w ++ [CannotOpen (st +:+ ".txt")] ∧
  returned (Oracle.count_nnz_fillin compute ndebug M hp st w)
    = returned (Oracle.count_nnz_fillin compute ndebug M hp st w').
Proof.
  intros Hno Hyes. unfold exportToPlainText. rewrite Hno. simpl.
  split; [done|]. split; [done|].
  unfold Oracle.count_nnz_fillin.
  destruct (negb ndebug && _); [done|].
  destruct (vec_make (e_rows M)) as [ix|]; simpl; [|done].
  destruct (for_range 0 (e_rows M) copy_index _) as [s|]; simpl; [|done].
  destruct (permute_symm_to_fullsymm M (indices s)) as [B|]; simpl; [|done].
  by case_bool_decide.
Qed.

Lemma copy_loop_frame (hp : list Z) n ix s :
  for_range 0 n copy_index {| Oracle.h_permute := hp; indices := ix |} = Ok s →
  Oracle.h_permute s = hp.
Proof.
  unfold for_range. intros Hrun.
  apply (for_count_preserve (λ s, Oracle.h_permute s = hp) copy_index _) in Hrun; [done| |done].
  intros i t t' Hstep Ht. unfold copy_index in Hstep.
  destruct (vec_get (Oracle.h_permute t) i) as [x|]; simpl in Hstep; [|done].
  destruct (vec_set (indices t) i x) as [ix'|]; simpl in Hstep; [|done].
  by injection Hstep as <-.
Qed.

(** C9: neither the validator nor the oracle changes the caller's array. *)
Theorem permutation_array_not_mutated :
  (∀ T size (m m' : memory) b,
     is_unique_permutation T size m = Ok (b, m') →
     Validator.h_permute m' = Validator.h_permute m) ∧
  (∀ ndebug (M : EigenMat V) (hp hp' : list Z) st (w w' : world V) v,
     Oracle.count_nnz_fillin compute ndebug M hp st w = Ok (v, hp', w') →
     hp' = hp).
Proof.
  split.
  - intros T size m m' b. unfold is_unique_permutation.
    destruct (vec_make size) as [v0|]; cbn [mbind result_bind]; [|done].
    destruct (memcpy v0 (Validator.h_permute m) size) as [v1|]; cbn [mbind result_bind]; [|done].
    destruct (check_from _ _ _ _) as [b'|]; cbn [mbind result_bind]; [|done].
    by intros [= _ <-].
  - intros ndebug M hp hp' st w w' v. unfold Oracle.count_nnz_fillin.
    destruct (negb ndebug && _); [done|].
    destruct (vec_make (e_rows M)) as [ix|]; simpl; [|done].
    destruct (for_range 0 (e_rows M) copy_index _) as [s|] eqn:Hloop; simpl; [|done].
    apply copy_loop_frame in Hloop.
    destruct (permute_symm_to_fullsymm M (indices s)) as [B|]; simpl; [|done].
    case_bool_decide; intros [= _ <- _]; done.
Qed.

End OracleClaims.

(** ** Under the identity the count is at least the number of nonzeros *)

Section IdentityBound.

Context {V : Type} (compute : EigenMat V → SimplicialLLT V).




End IdentityBound.

(** ** The worked instance, continued *)


Lemma oracle_failure_sentinel_witness :
  ∃ w' pre,
    Oracle.count_nnz_fillin failing_llt false M3 P3 "m" world_ro = Ok (-1, P3, w') ∧
    diagnostics w' = diagnostics world_ro ++ pre ++ [CholeskyFailed (info (failing_llt A3))] ∧
    (pre = [] ∨ pre = [CannotOpen ("m" +:+ ".txt")]) ∧
    factorizations w' = S (factorizations world_ro).
Proof.
  apply (oracle_failure_sentinel failing_llt false M3 A3 P3 "m" world_ro).
  - reflexivity.
  - vm_compute. reflexivity.
  - simpl. discriminate.
Defined.

Lemma export_failure_is_harmless_witness :
  files (exportToPlainText A3 ("m" +:+ ".txt") world_ro) = files world_ro ∧
  diagnostics (exportToPlainText A3 ("m" +:+ ".txt") world_ro)
    = diagnostics world_ro ++ [CannotOpen ("m" +:+ ".txt")] ∧
  returned (Oracle.count_nnz_fillin symbolic_llt false M3 P3 "m" world_ro)
    = returned (Oracle.count_nnz_fillin symbolic_llt false M3 P3 "m" world_rw).
Proof.
  apply (export_failure_is_harmless symbolic_llt false M3 A3 P3 "m" world_ro world_rw).
  - reflexivity.
  - reflexivity.
Defined.

Lemma permutation_array_not_mutated_witness :
  (∃ b m', is_unique_permutation int32_t 3 {| Validator.h_permute := P3; permute := [] |}
             = Ok (b, m') ∧ Validator.h_permute m' = P3) ∧
  (∃ v hp' w', Oracle.count_nnz_fillin symbolic_llt false M3 P3 "m" world_rw
                 = Ok (v, hp', w') ∧ hp' = P3).
Proof.
  destruct (permutation_array_not_mutated symbolic_llt) as [Hvalidator Horacle]. split.
  - eexists true, _. split; [vm_compute; reflexivity|].
    apply (Hvalidator int32_t 3 {| Validator.h_permute := P3; permute := [] |} _ true).
    vm_compute. reflexivity.
  - eexists 9, _, _. split; [vm_compute; reflexivity|].
    eapply (Horacle false M3 P3 _ "m" world_rw _ 9).
    vm_compute. reflexivity.
Defined.



(** ** The sweep, one step at a time *)

Lemma node_ok_mono r r' s v : r ≤ r' → node_ok r s v → node_ok r' s v.
Proof.
  intros Hr (p & t & Hp & Ht & Hpt). exists p, t. split; [done|]. split; [done|]. lia.
Qed.

Lemma init_row_node_ok r s s1 :
  0 ≤ r → init_row r s = Ok s1 →
  (∀ v, 0 ≤ v < r → node_ok (r - 1) s v) → ∀ v, 0 ≤ v ≤ r → node_ok r s1 v.
Proof.
  intros Hr Hinit Hold v Hv. unfold init_row in Hinit.
  destruct (vec_set (parent s) r (-1)) as [p1|] eqn:Hp; simpl in Hinit; [|done].
  destruct (vec_set (tags s) r r) as [t1|] eqn:Ht; simpl in Hinit; [|done].
  destruct (vec_set (nonZerosPerCol s) r 0) as [c1|] eqn:Hc; simpl in Hinit; [|done].
  apply vec_set_inv in Hp as [Hp ->]. apply vec_set_inv in Ht as [Ht ->].
  injection Hinit as <-. unfold node_ok. simpl.
  destruct (decide (v = r)) as [->|Hvr].
  - exists (-1), r. rewrite !list_lookup_insert_eq by lia. split; [done|]. split; [done|]. by left.
  - rewrite !list_lookup_insert_ne by lia.
    apply (node_ok_mono (r - 1)); [lia|]. apply Hold. lia.
Qed.

Lemma visit_Ok_inv r c s s1 c1 :
  visit r c s = Ok (s1, c1) →
  ∃ p k, 0 ≤ c ∧ parent s !! Z.to_nat c = Some p ∧
         nonZerosPerCol s !! Z.to_nat c = Some k ∧ (Z.to_nat c < length (tags s))%nat.
Proof.
  unfold visit.
  destruct (vec_get (parent s) c) as [p|] eqn:Hp; simpl; [|done].
  destruct (if bool_decide (p = -1) then vec_set (parent s) c r else Ok (parent s))
    as [par1|]; simpl; [|done].
  destruct (vec_get (nonZerosPerCol s) c) as [k|] eqn:Hk; simpl; [|done].
  destruct (vec_set (nonZerosPerCol s) c (wrap_int (k + 1))) as [cols1|]; simpl; [|done].
  destruct (vec_set (tags s) c r) as [tags1|] eqn:Ht; simpl; [|done].
  intros _. apply vec_get_Ok in Hp as [Hc Hp]. apply vec_get_Ok in Hk as [_ Hk].
  apply vec_set_inv in Ht as [Ht _]. exists p, k. split; [done|]. split; [done|].
  split; [done|lia].
Qed.

Lemma visit_node_ok r c s s1 c1 :
  0 ≤ c < r → visit r c s = Ok (s1, c1) → tags s !! Z.to_nat c ≠ Some r →
  (∀ v, 0 ≤ v ≤ r → node_ok r s v) →
  (∀ v, 0 ≤ v ≤ r → node_ok r s1 v) ∧ c < c1 ≤ r ∧
  (∀ v p, 0 ≤ v ≤ r → parent s !! Z.to_nat v = Some p → p ≠ -1 →
          parent s1 !! Z.to_nat v = Some p).
Proof.
  intros Hc Hvisit Htag Hold.
  destruct (Hold c) as (p & t & Hp & Ht & Hpt); [lia|].
  destruct (visit_Ok_inv r c s s1 c1 Hvisit) as (p' & k & _ & Hp' & Hk & Hlen).
  rewrite Hp in Hp'. injection Hp' as <-.
  rewrite (visit_Ok r c s p k) in Hvisit by (done || lia).
  injection Hvisit as <- <-.
  assert (t ≠ r) as Htr by (intros ->; by rewrite Ht in Htag).
  pose proof (lookup_lt_Some _ _ _ Hp) as Hlp. pose proof (lookup_lt_Some _ _ _ Ht) as Hlt.
  split; [|split].
  - intros v Hv. unfold node_ok. simpl. destruct (decide (v = c)) as [->|Hvc].
    + rewrite list_lookup_insert_eq by done. case_bool_decide as Hp1.
      * exists r, r. rewrite list_lookup_insert_eq by done. split; [done|]. split; [done|]. lia.
      * exists p, r. split; [done|]. split; [done|]. lia.
    + rewrite (list_lookup_insert_ne (tags s)) by lia.
      destruct (Hold v Hv) as (q & u & Hq & Hu & Hqu). exists q, u.
      split; [|done]. case_bool_decide; [|done]. by rewrite list_lookup_insert_ne by lia.
  - case_bool_decide; lia.
  - intros v q Hv Hq Hq1. simpl. case_bool_decide as Hp1; [|done].
    destruct (decide (v = c)) as [->|Hvc]; [congruence|]. by rewrite list_lookup_insert_ne by lia.
Qed.

Lemma tag_of_current_row r s : 0 ≤ r → node_ok r s r → tags s !! Z.to_nat r = Some r.
Proof. intros Hr (p & t & _ & Ht & [[_ ->]|?]); [done|lia]. Qed.

Lemma walk_head_below mat r i e c s t :
  forest_inv mat (WalkHead r i e c, s) → vec_get (tags s) c = Ok t → t ≠ r → 0 ≤ c < r.
Proof.
  intros [Hnodes [Hr Hc]] Ht Htr. simpl in *. apply vec_get_Ok in Ht as [Hc0 Ht].
  split; [done|]. destruct (decide (c = r)) as [->|]; [|lia].
  rewrite (tag_of_current_row r s) in Ht; [congruence|lia|]. apply Hnodes. lia.
Qed.

Lemma step_forest_inv mat cfg cfg' :
  forest_inv mat cfg → step mat cfg = Ok cfg' → forest_inv mat cfg'.
Proof.
  destruct cfg as [pt s]. intros Hinv Hstep. pose proof Hinv as [Hnodes Hpt].
  unfold step in Hstep. simpl in *. destruct pt as [r|r i e|r i e c|]; simpl in *.
  - case_bool_decide as Hr.
    + destruct (init_row r s) as [s1|] eqn:Hinit; simpl in Hstep; [|done].
      destruct (vec_get (row_ptr mat) r) as [start|]; simpl in Hstep; [|done].
      destruct (vec_get (row_ptr mat) (r + 1)) as [end_|]; simpl in Hstep; [|done].
      injection Hstep as <-. split; simpl; [|lia].
      apply (init_row_node_ok r s); [lia|done|done].
    + injection Hstep as <-. split; simpl; [|done]. intros v Hv.
      replace (rows mat) with r by lia. apply Hnodes. lia.
  - case_bool_decide as Hi.
    + destruct (vec_get (col_idx mat) i) as [c|]; simpl in Hstep; [|done].
      case_bool_decide; injection Hstep as <-; (split; simpl; [done|lia]).
    + injection Hstep as <-. split; simpl; [|lia]. intros v Hv.
      replace (r + 1 - 1) with r by lia. apply Hnodes. lia.
  - destruct (vec_get (tags s) c) as [t|] eqn:Ht; simpl in Hstep; [|done].
    case_bool_decide as Htr.
    + injection Hstep as <-. split; simpl; [done|lia].
    + destruct (walk_head_below mat r i e c s t Hinv Ht Htr) as [Hc0 Hcr].
      destruct (visit r c s) as [[s1 c1]|] eqn:Hvisit; simpl in Hstep; [|done].
      injection Hstep as <-. apply vec_get_Ok in Ht as [_ Ht].
      destruct (visit_node_ok r c s s1 c1) as (Hnodes1 & Hc1 & _); [lia|done|congruence|done|].
      split; simpl; [done|lia].
  - by injection Hstep as <-.
Qed.

Lemma reachable_forest_inv mat cfg : reachable mat cfg → forest_inv mat cfg.
Proof.
  induction 1 as [s0 Hs0|cfg cfg' _ IH Hstep]; [|by eapply step_forest_inv].
  unfold start_state, vec_make in Hs0. case_bool_decide; simpl in Hs0; [|done].
  split; simpl; [|lia]. intros v Hv. lia.
Qed.

Lemma step_keeps_parent mat cfg cfg' v p :
  forest_inv mat cfg → step mat cfg = Ok cfg' → initialized mat cfg.1 v →
  parent cfg.2 !! Z.to_nat v = Some p → p ≠ -1 → parent cfg'.2 !! Z.to_nat v = Some p.
Proof.
  destruct cfg as [pt s]. intros Hinv Hstep Hv Hp Hp1. pose proof Hinv as [Hnodes Hpt].
  unfold step in Hstep. simpl in *. destruct pt as [r|r i e|r i e c|]; simpl in *.
  - case_bool_decide as Hr; [|by injection Hstep as <-].
    unfold init_row in Hstep.
    destruct (vec_set (parent s) r (-1)) as [p1|] eqn:Hset; simpl in Hstep; [|done].
    destruct (vec_set (tags s) r r) as [t1|]; simpl in Hstep; [|done].
    destruct (vec_set (nonZerosPerCol s) r 0) as [c1|]; simpl in Hstep; [|done].
    destruct (vec_get (row_ptr mat) r) as [start|]; simpl in Hstep; [|done].
    destruct (vec_get (row_ptr mat) (r + 1)) as [end_|]; simpl in Hstep; [|done].
    injection Hstep as <-. simpl. apply vec_set_inv in Hset as [_ ->].
    by rewrite list_lookup_insert_ne by lia.
  - case_bool_decide as Hi; [|by injection Hstep as <-].
    destruct (vec_get (col_idx mat) i) as [c|]; simpl in Hstep; [|done].
    by case_bool_decide; injection Hstep as <-.
  - destruct (vec_get (tags s) c) as [t|] eqn:Ht; simpl in Hstep; [|done].
    case_bool_decide as Htr; [by injection Hstep as <-|].
    destruct (walk_head_below mat r i e c s t Hinv Ht Htr) as [Hc0 Hcr].
    destruct (visit r c s) as [[s1 c1]|] eqn:Hvisit; simpl in Hstep; [|done].
    injection Hstep as <-. simpl. apply vec_get_Ok in Ht as [_ Ht].
    destruct (visit_node_ok r c s s1 c1) as (_ & _ & Hkeep); [lia|done|congruence|done|].
    by apply Hkeep.
  - by injection Hstep as <-.
Qed.

(** The call of the function passes through these configurations. *)

Lemma walk_reachable mat fuel r i e : ∀ c s s',
  reachable mat (WalkHead r i e c, s) → walk fuel r c s = Ok s' →
  reachable mat (EntryHead r (i + 1) e, s').
Proof.
  induction fuel as [|fuel IH]; intros c s s' Hreach Hwalk; [done|].
  simpl in Hwalk. destruct (vec_get (tags s) c) as [t|] eqn:Ht; simpl in Hwalk; [|done].
  case_bool_decide as Htr.
  - injection Hwalk as <-. apply (reachable_step mat _ _ Hreach).
    unfold step. simpl. rewrite Ht. simpl. by rewrite bool_decide_eq_true_2.
  - destruct (visit r c s) as [[s1 c1]|] eqn:Hvisit; simpl in Hwalk; [|done].
    apply (IH c1 s1); [|done]. apply (reachable_step mat _ _ Hreach).
    unfold step. simpl. rewrite Ht. simpl. rewrite bool_decide_eq_false_2 by done.
    by rewrite Hvisit.
Qed.

Lemma entries_reachable mat fuel r e : ∀ (k : nat) i s s',
  reachable mat (EntryHead r i e, s) → k = Z.to_nat (e - i) →
  for_count k i (entry fuel mat r) s = Ok s' →
  reachable mat (RowHead (r + 1), s').
Proof.
  induction k as [|k IH]; intros i s s' Hreach Hk Hrun.
  - injection Hrun as <-. apply (reachable_step mat _ _ Hreach).
    unfold step. simpl. by rewrite bool_decide_eq_false_2 by lia.
  - simpl in Hrun. destruct (entry fuel mat r i s) as [s1|] eqn:Hentry; simpl in Hrun; [|done].
    apply (IH (i + 1) s1); [|lia|done].
    unfold entry in Hentry.
    destruct (vec_get (col_idx mat) i) as [c|] eqn:Hc; simpl in Hentry; [|done].
    case_bool_decide as Hcr.
    + apply (walk_reachable mat fuel r i e c s); [|done].
      apply (reachable_step mat _ _ Hreach). unfold step. simpl.
      rewrite bool_decide_eq_true_2 by lia. rewrite Hc. simpl.
      by rewrite bool_decide_eq_true_2.
    + injection Hentry as <-. apply (reachable_step mat _ _ Hreach). unfold step. simpl.
      rewrite bool_decide_eq_true_2 by lia. rewrite Hc. simpl.
      by rewrite bool_decide_eq_false_2.
Qed.

Lemma rows_reachable mat fuel : ∀ (k : nat) r s s',
  reachable mat (RowHead r, s) → k = Z.to_nat (rows mat - r) →
  for_count k r (row fuel mat) s = Ok s' →
  reachable mat (Returned, s').
Proof.
  induction k as [|k IH]; intros r s s' Hreach Hk Hrun.
  - injection Hrun as <-. apply (reachable_step mat _ _ Hreach).
    unfold step. simpl. by rewrite bool_decide_eq_false_2 by lia.
  - simpl in Hrun. destruct (row fuel mat r s) as [s1|] eqn:Hrow; simpl in Hrun; [|done].
    apply (IH (r + 1) s1); [|lia|done].
    unfold row in Hrow.
    destruct (init_row r s) as [s2|] eqn:Hinit; simpl in Hrow; [|done].
    destruct (vec_get (row_ptr mat) r) as [start|] eqn:Hstart; simpl in Hrow; [|done].
    destruct (vec_get (row_ptr mat) (r + 1)) as [end_|] eqn:Hend; simpl in Hrow; [|done].
    apply (entries_reachable mat fuel r end_ (Z.to_nat (end_ - start)) start s2); [|done|done].
    apply (reachable_step mat _ _ Hreach). unfold step. simpl.
    rewrite bool_decide_eq_true_2 by lia. rewrite Hinit. simpl. rewrite Hstart. simpl.
    by rewrite Hend.
Qed.

Lemma sweep_reachable mat fuel s : sweep fuel mat = Ok s → reachable mat (Returned, s).
Proof.
  unfold sweep. destruct (start_state (rows mat)) as [s0|] eqn:Hs0; simpl; [|done].
  intros Hrun. apply (rows_reachable mat fuel (Z.to_nat (rows mat - 0)) 0 s0); [|done|done].
  by apply reachable_start.
Qed.

Lemma visit_assigns_row mat r i e c s cfg' :
  forest_inv mat (WalkHead r i e c, s) → step mat (WalkHead r i e c, s) = Ok cfg' →
  tags s !! Z.to_nat c ≠ Some r → parent s !! Z.to_nat c = Some (-1) →
  parent cfg'.2 !! Z.to_nat c = Some r.
Proof.
  intros Hinv Hstep Htag Hp. unfold step in Hstep. simpl in Hstep.
  destruct (vec_get (tags s) c) as [t|] eqn:Ht; simpl in Hstep; [|done].
  apply vec_get_Ok in Ht as [Hc Ht].
  rewrite bool_decide_eq_false_2 in Hstep by (intros ->; by rewrite Ht in Htag).
  destruct (visit r c s) as [[s1 c1]|] eqn:Hvisit; simpl in Hstep; [|done].
  injection Hstep as <-. simpl.
  destruct (visit_Ok_inv r c s s1 c1 Hvisit) as (p & k & _ & Hp' & Hk & Hlen).
  rewrite (visit_Ok r c s p k) in Hvisit by done. injection Hvisit as <- <-. simpl.
  rewrite Hp in Hp'. injection Hp' as <-. rewrite bool_decide_eq_true_2 by done.
  apply list_lookup_insert_eq. by eapply lookup_lt_Some.
Qed.

(** C10: in every configuration the sweep passes through, every initialized
    node either has no parent and has never been visited, or has a parent of
    a strictly greater index, not beyond the row that visited it last nor
    beyond the row being processed.  The body of the walk, which alone
    assigns [parent[c] = r], runs with [c < r] only; it gives a node without
    parent the current row as its parent, and a parent once assigned is never
    changed.  The call of the function passes through these configurations. *)
Theorem parent_forest_invariant (mat : SparseMatrix) :
  (∀ pt s v, reachable mat (pt, s) → initialized mat pt v →
     ∃ p t, parent s !! Z.to_nat v = Some p ∧ tags s !! Z.to_nat v = Some t ∧
            ((p = -1 ∧ t = v) ∨ (v < p ≤ t ∧ t ≤ current_row mat pt))) ∧
  (∀ r i e c s t, reachable mat (WalkHead r i e c, s) →
     vec_get (tags s) c = Ok t → t ≠ r → 0 ≤ c < r) ∧
  (∀ r i e c s cfg', reachable mat (WalkHead r i e c, s) →
     step mat (WalkHead r i e c, s) = Ok cfg' →
     tags s !! Z.to_nat c ≠ Some r → parent s !! Z.to_nat c = Some (-1) →
     parent cfg'.2 !! Z.to_nat c = Some r) ∧
  (∀ cfg cfg' v p, reachable mat cfg → step mat cfg = Ok cfg' → initialized mat cfg.1 v →
     parent cfg.2 !! Z.to_nat v = Some p → p ≠ -1 → parent cfg'.2 !! Z.to_nat v = Some p) ∧
  (∀ fuel s, sweep fuel mat = Ok s → reachable mat (Returned, s)).
Proof.
  split; [|split; [|split; [|split]]].
  - intros pt s v Hreach Hv. apply reachable_forest_inv in Hreach as [Hnodes _].
    destruct (Hnodes v Hv) as (p & t & Hp & Ht & Hpt). exists p, t.
    split; [done|]. split; [done|]. simpl in Hpt. lia.
  - intros r i e c s t Hreach. apply walk_head_below with (mat := mat) (i := i) (e := e).
    by apply reachable_forest_inv.
  - intros r i e c s cfg' Hreach. apply visit_assigns_row. by apply reachable_forest_inv.
  - intros cfg cfg' v p Hreach. apply step_keeps_parent. by apply reachable_forest_inv.
  - intros fuel s. apply sweep_reachable.
Qed.

Lemma parent_forest_invariant_witness :
  ∃ s, sweep 4 path4 = Ok s ∧ reachable path4 (Returned, s) ∧
       ∃ p t, parent s !! Z.to_nat 0 = Some p ∧ tags s !! Z.to_nat 0 = Some t ∧
              ((p = -1 ∧ t = 0) ∨ (0 < p ≤ t ∧ t ≤ current_row path4 Returned)).
Proof.
  destruct (parent_forest_invariant path4) as (Hforest & _ & _ & _ & Hreach).
  eexists. split; [vm_compute; reflexivity|].
  split; [apply (Hreach 4%nat); vm_compute; reflexivity|].
  apply (Hforest Returned _ 0); [|simpl; lia].
  apply (Hreach 4%nat). vm_compute. reflexivity.
Defined.

(** * Further properties *)

(** ** The counter and the structural factor *)

Lemma filter_length_le {B} (P Q : B → Prop) `{∀ x, Decision (P x)} `{∀ x, Decision (Q x)}
    (l : list B) :
  (∀ x, x ∈ l → P x → Q x) → (length (filter P l) ≤ length (filter Q l))%nat.
Proof.
  induction l as [|x l IH]; intros Himp; [done|].
  assert (length (filter P l) ≤ length (filter Q l))%nat as Hl.
  { apply IH. intros y Hy. apply Himp. by right. }
  destruct (decide (P x)) as [HP|HP].
  - rewrite (filter_cons_True P), (filter_cons_True Q); [simpl; lia| |done].
    apply Himp; [by left|done].
  - rewrite (filter_cons_False P) by done.
    destruct (decide (Q x)); [rewrite filter_cons_True by done; simpl; lia|].
    by rewrite filter_cons_False.
Qed.

Lemma row_nnz_le A i : 0 ≤ i → row_nnz A i ≤ i.
Proof.
  intros Hi. unfold row_nnz.
  pose proof (length_filter (λ j, fillb A i j) (seqZ 0 i)) as Hle.
  rewrite length_seqZ in Hle. lia.
Qed.

Lemma fill_count_upper A (k : nat) :
  2 * fill_count A (Z.of_nat k) ≤ Z.of_nat k * (Z.of_nat k - 1).
Proof.
  induction k as [|k IH]; [done|].
  replace (Z.of_nat (S k)) with (Z.of_nat k + 1) by lia.
  rewrite fill_count_succ by lia. pose proof (row_nnz_le A (Z.of_nat k)). lia.
Qed.

Lemma Fill_mono_below A B n :
  (∀ i j, 0 ≤ j < i → i < n → A i j = true → B i j = true) →
  ∀ i j, Fill A i j → i < n → Fill B i j.
Proof.
  intros Himp i j HF. induction HF as [i j Hj HA|i j k Hk Hji _ IH1 _ IH2]; intros Hi.
  - apply Fill_entry; [done|]. by apply Himp.
  - apply (Fill_elim B i j k); [done|done|by apply IH1|apply IH2; lia].
Qed.

Lemma fill_count_mono_below A B n :
  (∀ i j, 0 ≤ j < i → i < n → A i j = true → B i j = true) →
  fill_count A n ≤ fill_count B n.
Proof.
  intros Himp. unfold fill_count.
  assert (∀ i, i ∈ seqZ 0 n → row_nnz A i ≤ row_nnz B i) as Hrow.
  { intros i Hi. apply elem_of_seqZ in Hi. unfold row_nnz.
    apply inj_le, filter_length_le. intros j _.
    rewrite !Is_true_true, !fillb_Fill. intros HF.
    apply (Fill_mono_below A B n); [done|done|lia]. }
  induction (seqZ 0 n) as [|x l IH]; simpl; [done|].
  pose proof (Hrow x ltac:(by left)).
  assert (foldr (λ i acc, row_nnz A i + acc) 0 l ≤ foldr (λ i acc, row_nnz B i + acc) 0 l);
    [|lia].
  apply IH. intros i Hi. apply Hrow. by right.
Qed.

Lemma fill_count_ext_below A B n :
  (∀ i j, 0 ≤ j < i → i < n → A i j = B i j) → fill_count A n = fill_count B n.
Proof.
  intros Hext. apply Z.le_antisymm; apply fill_count_mono_below; intros i j Hj Hi.
  - by rewrite Hext.
  - by rewrite <- Hext.
Qed.

Lemma exact_fill_bounds mat :
  0 ≤ rows mat → rows mat ≤ exact_fill mat ≤ rows mat * rows mat.
Proof.
  intros Hn. unfold exact_fill.
  pose proof (fill_count_nonneg (stored mat) (rows mat)).
  pose proof (fill_count_upper (stored mat) (Z.to_nat (rows mat))) as Hup.
  rewrite Z2Nat.id in Hup by done. lia.
Qed.

Lemma lower_positions_length A n (l : list (Z * Z)) :
  0 ≤ n → NoDup l → (∀ i j, (i, j) ∈ l ↔ i < n ∧ Fill A i j) →
  Z.of_nat (length l) = fill_count A n.
Proof.
  intros Hn Hnd Hl.
  set (diag := (λ r : Z, (r, r)) <$> seqZ 0 n).
  assert (Z.of_nat (length diag) = n) as Hld.
  { unfold diag. rewrite length_fmap, length_seqZ. lia. }
  assert (l ++ diag ≡ₚ factor_positions A n) as Hperm.
  { apply NoDup_Permutation.
    - apply NoDup_app. split; [done|]. split.
      + intros [i j] Hin Hd. apply Hl in Hin as [_ HF%Fill_bounds].
        apply list_elem_of_fmap in Hd as (k & [= -> ->] & _). lia.
      + apply NoDup_fmap_2; [|apply NoDup_seqZ]. by intros r1 r2 [= ->].
    - apply NoDup_factor_positions.
    - intros [i j]. rewrite elem_of_app, elem_of_factor_positions, Hl. split.
      + intros [[Hi HF]|Hd].
        * pose proof (Fill_bounds _ _ _ HF). split; [lia|]. split; [done|by right].
        * apply list_elem_of_fmap in Hd as (k & [= -> ->] & Hk). apply elem_of_seqZ in Hk.
          split; [lia|]. split; [lia|by left].
      + intros (Hj & Hi & [->|HF]); [right|by left].
        apply list_elem_of_fmap. exists i. split; [done|]. apply elem_of_seqZ. lia. }
  apply Permutation_length in Hperm. rewrite length_app in Hperm.
  pose proof (length_factor_positions A n Hn). lia.
Qed.

(** X1: on well-formed storage the counter returns twice the number of
    structural nonzeros below the diagonal of the Cholesky factor, plus the
    order, cut to an [int]. *)
Theorem counter_counts_structural_fill (mat : SparseMatrix) (fuel : nat) (l : list (Z * Z)) :
  well_formed mat → NoDup l →
  (∀ i j, (i, j) ∈ l ↔ i < rows mat ∧ Fill (stored mat) i j) →
  (Z.to_nat (rows mat) ≤ fuel)%nat →
  EliminationTree.count_nnz_fillin fuel mat
  = Ok (wrap_int (2 * Z.of_nat (length l) + rows mat)).
Proof.
  intros Hwf Hnd Hl Hfuel. pose proof Hwf as (Hn & _).
  rewrite (count_nnz_fillin_exact mat fuel Hwf Hfuel). unfold exact_fill.
  by rewrite (lower_positions_length (stored mat) (rows mat) l).
Qed.

Lemma counter_counts_structural_fill_witness :
  EliminationTree.count_nnz_fillin 3 mat3
  = Ok (wrap_int (2 * Z.of_nat (length [(1, 0); (2, 0); (2, 1)]) + rows mat3)).
Proof.
  apply (counter_counts_structural_fill mat3 3 [(1, 0); (2, 0); (2, 1)]).
  - exact well_formed_mat3.
  - refine (bool_decide_unpack _ _). vm_compute. exact I.
  - intros i j. split.
    + intros Hin. repeat (apply elem_of_cons in Hin as [[= -> ->]|Hin]);
        [..|by apply elem_of_nil in Hin];
        (split; [done|]; apply fillb_Fill; vm_compute; reflexivity).
    + intros [Hi HF]. pose proof (Fill_bounds _ _ _ HF). change (rows mat3) with 3 in Hi.
      assert ((i = 1 ∧ j = 0) ∨ (i = 2 ∧ j = 0) ∨ (i = 2 ∧ j = 1))
        as [[-> ->] | [[-> ->] | [-> ->]]] by lia.
      * by left.
      * right. by left.
      * do 2 right. by left.
  - simpl. lia.
Defined.

(** X2: the result lies between the order and its square; up to order
    46340 no count overflows the [int]. *)
Theorem counter_result_bounds (mat : SparseMatrix) (fuel : nat) :
  well_formed mat → rows mat ≤ 46340 → (Z.to_nat (rows mat) ≤ fuel)%nat →
  ∃ v, EliminationTree.count_nnz_fillin fuel mat = Ok v ∧
       v = exact_fill mat ∧ rows mat ≤ v ≤ rows mat * rows mat.
Proof.
  intros Hwf Hsmall Hfuel. pose proof Hwf as (Hn & _).
  pose proof (exact_fill_bounds mat Hn) as Hb.
  exists (exact_fill mat). split; [|done].
  rewrite (count_nnz_fillin_exact mat fuel Hwf Hfuel). f_equal.
  apply wrap_int_small. unfold INT_MIN, INT_MAX. nia.
Qed.

Lemma counter_result_bounds_witness :
  ∃ v, EliminationTree.count_nnz_fillin 4 path4 = Ok v ∧
       v = exact_fill path4 ∧ rows path4 ≤ v ≤ rows path4 * rows path4.
Proof.
  apply (counter_result_bounds path4 4).
  - exact well_formed_path4.
  - vm_compute. discriminate.
  - simpl. lia.
Defined.

(** X3: storing more entries below the diagonal never lowers the count. *)
Theorem counter_monotone (mat1 mat2 : SparseMatrix) (fuel : nat) :
  well_formed mat1 → well_formed mat2 → rows mat1 = rows mat2 →
  (∀ i j, 0 ≤ j < i → i < rows mat1 → stored mat1 i j = true → stored mat2 i j = true) →
  exact_fill mat2 ≤ INT_MAX →
  (Z.to_nat (rows mat1) ≤ fuel)%nat →
  ∃ v1 v2, EliminationTree.count_nnz_fillin fuel mat1 = Ok v1 ∧
           EliminationTree.count_nnz_fillin fuel mat2 = Ok v2 ∧ v1 ≤ v2.
Proof.
  intros Hwf1 Hwf2 Hrows Hsub Hfit Hfuel. pose proof Hwf1 as (Hn & _).
  pose proof (fill_count_mono_below (stored mat1) (stored mat2) (rows mat1) Hsub) as Hle.
  pose proof (exact_fill_bounds mat1 Hn) as Hb1.
  assert (exact_fill mat1 ≤ exact_fill mat2) as Hex.
  { unfold exact_fill. rewrite <- Hrows. lia. }
  exists (exact_fill mat1), (exact_fill mat2).
  rewrite (count_nnz_fillin_exact mat1 fuel Hwf1 Hfuel).
  rewrite (count_nnz_fillin_exact mat2 fuel Hwf2) by (by rewrite <- Hrows).
  rewrite !wrap_int_small by (unfold INT_MIN; lia). done.
Qed.

Lemma counter_monotone_witness :
  ∃ v1 v2, EliminationTree.count_nnz_fillin 4 upper4 = Ok v1 ∧
           EliminationTree.count_nnz_fillin 4 path4 = Ok v2 ∧ v1 ≤ v2.
Proof.
  apply (counter_monotone upper4 path4 4).
  - refine (bool_decide_unpack _ _). vm_compute. exact I.
  - exact well_formed_path4.
  - reflexivity.
  - intros i j Hj Hi. change (rows upper4) with 4 in Hi.
    assert (i = 1 ∨ i = 2 ∨ i = 3) as [-> | [-> | ->]] by lia.
    + assert (j = 0) as -> by lia. done.
    + assert (j = 0 ∨ j = 1) as [-> | ->] by lia; done.
    + assert (j = 0 ∨ j = 1 ∨ j = 2) as [-> | [-> | ->]] by lia; done.
  - vm_compute. discriminate.
  - simpl. lia.
Defined.

(** X4: the result is determined by the pattern below the diagonal: the
    order of the entries within a row, entries stored twice and entries on or
    above the diagonal make no difference. *)
Theorem counter_reads_lower_pattern (mat1 mat2 : SparseMatrix) (fuel : nat) :
  well_formed mat1 → well_formed mat2 → rows mat1 = rows mat2 →
  (∀ i j, 0 ≤ j < i → i < rows mat1 → stored mat1 i j = stored mat2 i j) →
  (Z.to_nat (rows mat1) ≤ fuel)%nat →
  EliminationTree.count_nnz_fillin fuel mat1 = EliminationTree.count_nnz_fillin fuel mat2.
Proof.
  intros Hwf1 Hwf2 Hrows Hsame Hfuel.
  rewrite (count_nnz_fillin_exact mat1 fuel Hwf1 Hfuel).
  rewrite (count_nnz_fillin_exact mat2 fuel Hwf2) by (by rewrite <- Hrows).
  unfold exact_fill. rewrite <- Hrows.
  by rewrite (fill_count_ext_below (stored mat1) (stored mat2) (rows mat1) Hsame).
Qed.

Lemma counter_reads_lower_pattern_witness :
  EliminationTree.count_nnz_fillin 4 path4 = EliminationTree.count_nnz_fillin 4 path4_shuffled.
Proof.
  apply (counter_reads_lower_pattern path4 path4_shuffled 4).
  - exact well_formed_path4.
  - refine (bool_decide_unpack _ _). vm_compute. exact I.
  - reflexivity.
  - intros i j Hj Hi. change (rows path4) with 4 in Hi.
    assert (i = 1 ∨ i = 2 ∨ i = 3) as [-> | [-> | ->]] by lia.
    + assert (j = 0) as -> by lia. done.
    + assert (j = 0 ∨ j = 1) as [-> | ->] by lia; done.
    + assert (j = 0 ∨ j = 1 ∨ j = 2) as [-> | [-> | ->]] by lia; done.
  - simpl. lia.
Defined.

(** ** Patterns whose count is known *)

Lemma row_nnz_full A i :
  0 ≤ i → (∀ j, 0 ≤ j < i → Fill A i j) → row_nnz A i = i.
Proof.
  intros Hi Hall. unfold row_nnz. rewrite filter_all.
  - rewrite length_seqZ. lia.
  - intros j Hj. apply elem_of_seqZ in Hj. apply Is_true_true, fillb_Fill, Hall. lia.
Qed.

Lemma row_nnz_none A i :
  (∀ j, 0 ≤ j < i → ¬ Fill A i j) → row_nnz A i = 0.
Proof.
  intros Hnone. unfold row_nnz. rewrite filter_none; [done|].
  intros j Hj. apply elem_of_seqZ in Hj. rewrite Is_true_true, fillb_Fill. apply Hnone. lia.
Qed.

Lemma row_nnz_one A i :
  0 < i → Fill A i (i - 1) → (∀ j, 0 ≤ j < i - 1 → ¬ Fill A i j) → row_nnz A i = 1.
Proof.
  intros Hi Hlast Hnone. unfold row_nnz.
  replace (seqZ 0 i) with (seqZ 0 (i - 1 + 1)) by (f_equal; lia). rewrite seqZ_app by lia.
  rewrite filter_app, filter_none.
  - rewrite (seqZ_cons _ 1), seqZ_nil by lia. replace (0 + (i - 1)) with (i - 1) by lia.
    rewrite filter_cons_True; [done|]. by apply Is_true_true, fillb_Fill.
  - intros j Hj. apply elem_of_seqZ in Hj. rewrite Is_true_true, fillb_Fill. apply Hnone. lia.
Qed.

Lemma fill_count_rows A (f : Z → Z) (k : nat) (total : Z → Z) :
  total 0 = 0 →
  (∀ i, 0 ≤ i < Z.of_nat k → row_nnz A i = f i ∧ total (i + 1) = total i + f i) →
  fill_count A (Z.of_nat k) = total (Z.of_nat k).
Proof.
  intros H0 Hrows. induction k as [|k IH]; [by rewrite Nat2Z.inj_0, H0|].
  replace (Z.of_nat (S k)) with (Z.of_nat k + 1) by lia.
  rewrite fill_count_succ by lia.
  destruct (Hrows (Z.of_nat k)) as [-> ->]; [lia|].
  rewrite IH; [done|]. intros i Hi. apply Hrows. lia.
Qed.

(** X5: storage with no entry below the diagonal (a diagonal matrix, or the
    upper triangle only) gives the order. *)
Theorem no_lower_entries_count (mat : SparseMatrix) (fuel : nat) :
  well_formed mat → rows mat ≤ INT_MAX →
  (∀ i j, 0 ≤ j < i → i < rows mat → stored mat i j = false) →
  (Z.to_nat (rows mat) ≤ fuel)%nat →
  EliminationTree.count_nnz_fillin fuel mat = Ok (rows mat).
Proof.
  intros Hwf Hfit Hnone Hfuel. pose proof Hwf as (Hn & _).
  rewrite (count_nnz_fillin_exact mat fuel Hwf Hfuel). unfold exact_fill.
  assert (∀ i j, i < rows mat → ¬ Fill (stored mat) i j) as Hnofill.
  { intros i j Hi HF. induction HF as [i j Hj HA|i j k Hk Hji _ IH1 _ _]; [|by apply IH1].
    by rewrite Hnone in HA. }
  rewrite <- (Z2Nat.id (rows mat)) at 1 by done.
  rewrite (fill_count_rows (stored mat) (λ _, 0) (Z.to_nat (rows mat)) (λ _, 0)); [| done |].
  - f_equal. apply wrap_int_small. unfold INT_MIN. lia.
  - intros i Hi. split; [|done]. apply row_nnz_none. intros j Hj. apply Hnofill. lia.
Qed.

Lemma no_lower_entries_count_witness :
  EliminationTree.count_nnz_fillin 4 upper4 = Ok (rows upper4).
Proof.
  apply (no_lower_entries_count upper4 4).
  - refine (bool_decide_unpack _ _). vm_compute. exact I.
  - vm_compute. discriminate.
  - intros i j Hj Hi. change (rows upper4) with 4 in Hi.
    assert (i = 1 ∨ i = 2 ∨ i = 3) as [-> | [-> | ->]] by lia.
    + assert (j = 0) as -> by lia. done.
    + assert (j = 0 ∨ j = 1) as [-> | ->] by lia; done.
    + assert (j = 0 ∨ j = 1 ∨ j = 2) as [-> | [-> | ->]] by lia; done.
  - simpl. lia.
Defined.

(** X6: when every row stores column 0, the factor is full whatever else is
    stored, and the count is the square of the order. *)
Theorem dense_first_column_count (mat : SparseMatrix) (fuel : nat) :
  well_formed mat → rows mat * rows mat ≤ INT_MAX →
  (∀ i, 0 < i < rows mat → stored mat i 0 = true) →
  (Z.to_nat (rows mat) ≤ fuel)%nat →
  EliminationTree.count_nnz_fillin fuel mat = Ok (rows mat * rows mat).
Proof.
  intros Hwf Hfit Hcol Hfuel. pose proof Hwf as (Hn & _).
  rewrite (count_nnz_fillin_exact mat fuel Hwf Hfuel). unfold exact_fill.
  assert (∀ i j, 0 ≤ j < i → i < rows mat → Fill (stored mat) i j) as Hfill.
  { intros i j Hj Hi. destruct (decide (j = 0)) as [->|Hj0].
    - apply Fill_entry; [lia|]. apply Hcol. lia.
    - apply (Fill_elim _ i j 0); [lia|lia|..]; (apply Fill_entry; [lia|]; apply Hcol; lia). }
  rewrite <- (Z2Nat.id (rows mat)) at 1 by done.
  rewrite (fill_count_rows (stored mat) (λ i, i) (Z.to_nat (rows mat))
             (λ k, (k * (k - 1)) `div` 2)); [|done|].
  - f_equal. cbv beta. rewrite Z2Nat.id by done.
    assert (2 * ((rows mat * (rows mat - 1)) `div` 2) = rows mat * (rows mat - 1)) as Heven.
    { destruct (Z.Even_or_Odd (rows mat)) as [[q Hq]|[q Hq]].
      - replace (rows mat * (rows mat - 1)) with ((q * (rows mat - 1)) * 2) by lia.
        rewrite Z.div_mul by done. lia.
      - replace (rows mat * (rows mat - 1)) with ((rows mat * q) * 2) by lia.
        rewrite Z.div_mul by done. lia. }
    rewrite wrap_int_small; [lia|]. unfold INT_MIN. nia.
  - intros i Hi. split; [apply row_nnz_full; [lia|]; intros j Hj; apply Hfill; lia|].
    replace ((i + 1) * (i + 1 - 1)) with (i * (i - 1) + i * 2) by lia.
    rewrite Z.div_add by done. lia.
Qed.

Lemma dense_first_column_count_witness :
  EliminationTree.count_nnz_fillin 4 arrow4 = Ok (rows arrow4 * rows arrow4).
Proof.
  apply (dense_first_column_count arrow4 4).
  - refine (bool_decide_unpack _ _). vm_compute. exact I.
  - vm_compute. discriminate.
  - intros i Hi. change (rows arrow4) with 4 in Hi.
    assert (i = 1 ∨ i = 2 ∨ i = 3) as [-> | [-> | ->]] by lia; done.
  - simpl. lia.
Defined.

(** X7: a tridiagonal pattern (a path ordered along itself) has no fill: the
    count is [3 * n - 2], provided that number fits an [int]. *)
Theorem tridiagonal_count (mat : SparseMatrix) (fuel : nat) :
  well_formed mat → 1 ≤ rows mat → 3 * rows mat - 2 ≤ INT_MAX →
  (∀ i j, 0 ≤ j < i → i < rows mat → (stored mat i j = true ↔ j = i - 1)) →
  (Z.to_nat (rows mat) ≤ fuel)%nat →
  EliminationTree.count_nnz_fillin fuel mat = Ok (3 * rows mat - 2).
Proof.
  intros Hwf Hn Hfit Htri Hfuel.
  rewrite (count_nnz_fillin_exact mat fuel Hwf Hfuel). unfold exact_fill.
  assert (∀ i j, Fill (stored mat) i j → i < rows mat → j = i - 1) as Hfill.
  { intros i j HF. induction HF as [i j Hj HA|i j k Hk Hji _ IH1 _ IH2]; intros Hi.
    - by apply Htri.
    - specialize (IH1 Hi). specialize (IH2 ltac:(lia)). lia. }
  rewrite <- (Z2Nat.id (rows mat)) at 1 by lia.
  rewrite (fill_count_rows (stored mat) (λ i, if bool_decide (i = 0) then 0 else 1)
             (Z.to_nat (rows mat)) (λ k, if bool_decide (k ≤ 0) then 0 else k - 1)); [|done|].
  - rewrite Z2Nat.id by lia. rewrite bool_decide_eq_false_2 by lia.
    f_equal. rewrite wrap_int_small; [lia|]. unfold INT_MIN. lia.
  - intros i Hi. split.
    + case_bool_decide as Hi0.
      * subst i. apply row_nnz_none. intros j Hj. lia.
      * apply row_nnz_one; [lia| |].
        -- apply Fill_entry; [lia|]. apply Htri; lia.
        -- intros j Hj HF. specialize (Hfill i j HF ltac:(lia)). lia.
    + repeat case_bool_decide; lia.
Qed.

Lemma tridiagonal_count_witness :
  EliminationTree.count_nnz_fillin 4 path4 = Ok (3 * rows path4 - 2).
Proof.
  apply (tridiagonal_count path4 4).
  - exact well_formed_path4.
  - simpl. lia.
  - vm_compute. discriminate.
  - intros i j Hj Hi. change (rows path4) with 4 in Hi.
    assert (i = 1 ∨ i = 2 ∨ i = 3) as [-> | [-> | ->]] by lia.
    + assert (j = 0) as -> by lia. done.
    + assert (j = 0 ∨ j = 1) as [-> | ->] by lia; (split; [done|intros; lia]) || (split; [intros; lia|done]).
    + assert (j = 0 ∨ j = 1 ∨ j = 2) as [-> | [-> | ->]] by lia;
        (split; [done|intros; lia]) || (split; [intros; lia|done]).
  - simpl. lia.
Defined.

(** X8: when the sweep is over, [parent] is the elimination tree: the parent
    of [v] is the first row after [v] whose row of the factor holds column
    [v], and [-1] when there is none. *)
Theorem sweep_builds_elimination_tree (mat : SparseMatrix) (fuel : nat) :
  well_formed mat → (Z.to_nat (rows mat) ≤ fuel)%nat →
  ∃ s, sweep fuel mat = Ok s ∧
       ∀ v, 0 ≤ v < rows mat →
         ∃ p, parent s !! Z.to_nat v = Some p ∧
              ((p = -1 ∧ ∀ i, v < i < rows mat → ¬ Fill (stored mat) i v) ∨
               (v < p < rows mat ∧ Fill (stored mat) p v ∧
                ∀ i, v < i < p → ¬ Fill (stored mat) i v)).
Proof.
  intros Hwf Hfuel. destruct (sweep_correct mat fuel Hwf Hfuel) as (s & Hs & Hinv).
  exists s. split; [done|]. intros v Hv.
  destruct (si_parent _ _ _ _ Hinv v Hv) as (p & Hp & Hpb). exists p. split; [done|].
  destruct (decide (p = -1)) as [->|Hp1].
  - left. split; [done|]. intros i Hi. by apply (si_orphan _ _ _ _ Hinv v i).
  - right. split; [lia|]. by apply (si_first _ _ _ _ Hinv v p).
Qed.

Lemma sweep_builds_elimination_tree_witness :
  ∃ s, sweep 4 arrow4 = Ok s ∧
       ∀ v, 0 ≤ v < rows arrow4 →
         ∃ p, parent s !! Z.to_nat v = Some p ∧
              ((p = -1 ∧ ∀ i, v < i < rows arrow4 → ¬ Fill (stored arrow4) i v) ∨
               (v < p < rows arrow4 ∧ Fill (stored arrow4) p v ∧
                ∀ i, v < i < p → ¬ Fill (stored arrow4) i v)).
Proof.
  apply (sweep_builds_elimination_tree arrow4 4).
  - refine (bool_decide_unpack _ _). vm_compute. exact I.
  - simpl. lia.
Defined.

(** ** The column counts *)

Lemma col_count_succ A v r :
  v < r → col_count A v (r + 1) = col_count A v r + (if fillb A r v then 1 else 0).
Proof.
  intros Hv. unfold col_count.
  replace (r + 1 - (v + 1)) with (r - (v + 1) + 1) by lia.
  rewrite seqZ_app by lia. rewrite filter_app, length_app.
  rewrite (seqZ_cons _ 1), (seqZ_nil _ (Z.pred 1)) by lia.
  replace (v + 1 + (r - (v + 1))) with r by lia.
  destruct (fillb A r v) eqn:E.
  - rewrite filter_cons_True; [simpl; lia|]. cbv beta. by rewrite E.
  - rewrite filter_cons_False; [simpl; lia|]. cbv beta. rewrite E. simpl. tauto.
Qed.

Lemma col_count_self A v : col_count A v (v + 1) = 0.
Proof. unfold col_count. by replace (v + 1 - (v + 1)) with 0 by lia. Qed.

Lemma col_count_bounds A v r : v < r → 0 ≤ col_count A v r ≤ r - v - 1.
Proof.
  intros Hv. unfold col_count.
  pose proof (length_filter (λ i, fillb A i v) (seqZ (v + 1) (r - (v + 1)))) as Hle.
  rewrite length_seqZ in Hle. lia.
Qed.

Lemma column_positions_length A v n (l : list Z) :
  NoDup l → (∀ i, i ∈ l ↔ v < i < n ∧ Fill A i v) → Z.of_nat (length l) = col_count A v n.
Proof.
  intros Hnd Hl. unfold col_count. f_equal. apply Permutation_length.
  apply NoDup_Permutation; [done|apply NoDup_filter, NoDup_seqZ|].
  intros i. rewrite Hl, list_elem_of_filter, elem_of_seqZ, Is_true_true, fillb_Fill.
  split; intros [? ?]; (split; [done || lia|done || lia]).
Qed.

Lemma visit_cols A r c s s1 c1 :
  cols_inv A r s → visit r c s = Ok (s1, c1) → tags s !! Z.to_nat c ≠ Some r →
  cols_inv A r s1.
Proof.
  intros [Hr Htag Hown Hcols] Hvisit Hfresh.
  destruct (visit_Ok_inv _ _ _ _ _ Hvisit) as (p & k & Hc & Hp & Hk & Hlt).
  rewrite (visit_Ok r c s p k) in Hvisit by done. injection Hvisit as <- _.
  assert (c ≠ r) as Hcr by (by intros ->).
  pose proof (lookup_lt_Some _ _ _ Hk) as Hlk.
  split; simpl.
  - done.
  - by rewrite list_lookup_insert_ne by lia.
  - by rewrite list_lookup_insert_ne by lia.
  - intros v Hv. destruct (decide (v = c)) as [->|Hvc].
    + rewrite !list_lookup_insert_eq by done. rewrite bool_decide_eq_true_2 by done.
      rewrite (Hcols c Hv), bool_decide_eq_false_2 in Hk by done. injection Hk as <-.
      f_equal. rewrite wrap_int_add_l. f_equal. lia.
    + rewrite !list_lookup_insert_ne by lia. by apply Hcols.
Qed.

Lemma walk_cols A r : ∀ fuel c s s',
  cols_inv A r s → walk fuel r c s = Ok s' → cols_inv A r s'.
Proof.
  induction fuel as [|fuel IH]; intros c s s' Hinv Hwalk; [done|]. simpl in Hwalk.
  destruct (vec_get (tags s) c) as [t|] eqn:Ht; simpl in Hwalk; [|done].
  case_bool_decide as Htr; [by simplify_eq|].
  destruct (visit r c s) as [[s1 c1]|] eqn:Hv; simpl in Hwalk; [|done].
  apply (IH c1 s1); [|done]. eapply visit_cols; [done..|].
  apply vec_get_Ok in Ht as [_ Ht]. rewrite Ht. congruence.
Qed.

Lemma entry_cols A fuel mat r i s s' :
  cols_inv A r s → entry fuel mat r i s = Ok s' → cols_inv A r s'.
Proof.
  intros Hinv. unfold entry.
  destruct (vec_get (col_idx mat) i) as [c|]; simpl; [|done].
  case_bool_decide; [by apply walk_cols|]. by intros [= <-].
Qed.

Lemma init_row_cols A r s s1 :
  0 ≤ r → cols_done A r s → (∀ v, 0 ≤ v < r → tags s !! Z.to_nat v ≠ Some r) →
  init_row r s = Ok s1 → cols_inv A r s1.
Proof.
  intros Hr Hdone Hfresh. unfold init_row.
  destruct (vec_set (parent s) r (-1)) as [par1|] eqn:Hp; simpl; [|done].
  destruct (vec_set (tags s) r r) as [tags1|] eqn:Ht; simpl; [|done].
  destruct (vec_set (nonZerosPerCol s) r 0) as [cols1|] eqn:Hc; simpl; [|done].
  intros [= <-].
  apply vec_set_inv in Ht as [Htb ->]. apply vec_set_inv in Hc as [Hcb ->].
  split; simpl.
  - done.
  - apply list_lookup_insert_eq. lia.
  - apply list_lookup_insert_eq. lia.
  - intros v Hv. rewrite !list_lookup_insert_ne by lia.
    rewrite bool_decide_eq_false_2 by (by apply Hfresh).
    rewrite Z.add_0_r. by apply Hdone.
Qed.

Lemma row_cols_inv A fuel mat r s s' :
  0 ≤ r → cols_done A r s → (∀ v, 0 ≤ v < r → tags s !! Z.to_nat v ≠ Some r) →
  row fuel mat r s = Ok s' → cols_inv A r s'.
Proof.
  intros Hr Hdone Hfresh. unfold row.
  destruct (init_row r s) as [s1|] eqn:Hinit; simpl; [|done].
  destruct (vec_get (row_ptr mat) r) as [start|]; simpl; [|done].
  destruct (vec_get (row_ptr mat) (r + 1)) as [end_|]; simpl; [|done].
  unfold for_range. intros Hrun.
  eapply (for_count_preserve (cols_inv A r)); [|done|by eapply init_row_cols].
  intros i t t' Hb Ht. by eapply entry_cols.
Qed.

Lemma row_tags mat fuel r s :
  well_formed mat → (Z.to_nat (rows mat) ≤ fuel)%nat → r < rows mat →
  sweep_inv (stored mat) (rows mat) r s →
  ∃ s', row fuel mat r s = Ok s' ∧ sweep_inv (stored mat) (rows mat) (r + 1) s' ∧
        ∀ v, 0 ≤ v < r → tags s' !! Z.to_nat v = Some r ↔ Fill (stored mat) r v.
Proof.
  intros Hwf Hfuel Hrn Hinv. pose proof (si_row _ _ _ _ Hinv) as Hr.
  destruct (init_row_inv _ _ _ _ Hinv Hrn) as (s1 & Hinit & Hinv1 & Hcl1).
  destruct (well_formed_row mat r Hwf) as (st & en & Hst & Hen & Hse & Hel); [lia|].
  destruct (entries_inv mat fuel r (fill_count (stored mat) r) s1 st en)
    as (s' & Hrun & Hinv' & Hcl' & Hent); [done..|].
  exists s'. split; [|split].
  - unfold row. rewrite Hinit. simpl.
    rewrite (vec_get_lookup _ r st), (vec_get_lookup _ (r + 1) en) by (lia || done). done.
  - by apply row_done.
  - intros v Hv. split.
    + intros Hvt. by apply (ri_visited _ _ _ _ _ Hinv' v).
    + by apply (row_complete _ _ _ _ _ Hinv' Hcl' Hent).
Qed.

Lemma cols_done_step A r s :
  cols_inv A r s →
  (∀ v, 0 ≤ v < r → tags s !! Z.to_nat v = Some r ↔ Fill A r v) →
  cols_done A (r + 1) s.
Proof.
  intros [Hr Htag Hown Hcols] Htags v Hv. destruct (decide (v = r)) as [->|Hvr].
  - by rewrite Hown, col_count_self.
  - rewrite Hcols, col_count_succ by lia. do 3 f_equal.
    case_bool_decide as Ht.
    + apply Htags, fillb_Fill in Ht; [|lia]. by rewrite Ht.
    + destruct (fillb A r v) eqn:E; [|done]. exfalso. apply Ht, Htags; [lia|].
      by apply fillb_Fill.
Qed.

Lemma sweep_cols mat fuel :
  well_formed mat → (Z.to_nat (rows mat) ≤ fuel)%nat →
  ∃ s, sweep fuel mat = Ok s ∧ cols_done (stored mat) (rows mat) s.
Proof.
  intros Hwf Hfuel. pose proof Hwf as (Hn & _).
  destruct (start_state_inv (stored mat) (rows mat) Hn) as (s0 & Hs0 & Hinv0).
  unfold sweep. rewrite Hs0. simpl.
  destruct (for_range_inv
              (λ r s, sweep_inv (stored mat) (rows mat) r s ∧ cols_done (stored mat) r s)
              (row fuel mat) 0 (rows mat) s0) as (s & Hrun & _ & Hdone).
  - done.
  - split; [done|]. intros v Hv. lia.
  - intros r s [Hr Hrn] [Hinv Hdone].
    destruct (row_tags mat fuel r s) as (s' & Hrow & Hinv' & Htags); [done..|].
    exists s'. split; [done|]. split; [done|].
    apply cols_done_step; [|done]. eapply row_cols_inv; [done|done| |done].
    intros v Hv. destruct (si_tags _ _ _ _ Hinv v Hv) as (t & Ht & Htb).
    rewrite Ht. intros [= ?]. lia.
  - by exists s.
Qed.

(** X9: when the sweep is over, [nonZerosPerCol[v]] is the number of
    structural nonzeros below the diagonal in column [v] of the factor. *)
Theorem sweep_counts_columns (mat : SparseMatrix) (fuel : nat) :
  well_formed mat → rows mat ≤ INT_MAX → (Z.to_nat (rows mat) ≤ fuel)%nat →
  ∃ s, sweep fuel mat = Ok s ∧
       ∀ v (l : list Z), 0 ≤ v < rows mat → NoDup l →
         (∀ i, i ∈ l ↔ v < i < rows mat ∧ Fill (stored mat) i v) →
         nonZerosPerCol s !! Z.to_nat v = Some (Z.of_nat (length l)).
Proof.
  intros Hwf Hfit Hfuel. destruct (sweep_cols mat fuel Hwf Hfuel) as (s & Hs & Hdone).
  exists s. split; [done|]. intros v l Hv Hnd Hl.
  rewrite (Hdone v Hv), (column_positions_length _ v (rows mat) l Hnd Hl).
  f_equal. apply wrap_int_small.
  pose proof (col_count_bounds (stored mat) v (rows mat) ltac:(lia)). unfold INT_MIN. lia.
Qed.

Lemma sweep_counts_columns_witness :
  ∃ s, sweep 4 arrow4 = Ok s ∧
       ∀ v (l : list Z), 0 ≤ v < rows arrow4 → NoDup l →
         (∀ i, i ∈ l ↔ v < i < rows arrow4 ∧ Fill (stored arrow4) i v) →
         nonZerosPerCol s !! Z.to_nat v = Some (Z.of_nat (length l)).
Proof.
  apply (sweep_counts_columns arrow4 4).
  - refine (bool_decide_unpack _ _). vm_compute. exact I.
  - vm_compute. discriminate.
  - simpl. lia.
Defined.

(** ** The validator when the size is not the length or does not fit [T] *)

Section ValidatorMore.

Import Validator.

Lemma cast_upper T z :
  0 < it_bits T → 0 ≤ z → cast T z ≤ z ∧ cast T z ≤ it_max T.
Proof.
  intros Hb Hz. unfold cast, it_max. destruct (it_signed T).
  - assert (2 ^ it_bits T = 2 * 2 ^ (it_bits T - 1)) as Hpow.
    { replace (it_bits T) with (it_bits T - 1 + 1) at 1 by lia.
      rewrite Z.pow_add_r, Z.pow_1_r by lia. lia. }
    assert (0 < 2 ^ (it_bits T - 1)) as Hpos by (apply Z.pow_pos_nonneg; lia).
    pose proof (Z.mod_le (z + 2 ^ (it_bits T - 1)) (2 ^ it_bits T)) as Hle.
    pose proof (Z.mod_pos_bound (z + 2 ^ (it_bits T - 1)) (2 ^ it_bits T)) as Hlt.
    lia.
  - assert (0 < 2 ^ it_bits T) as Hpos by (apply Z.pow_pos_nonneg; lia).
    pose proof (Z.mod_le z (2 ^ it_bits T)) as Hle.
    pose proof (Z.mod_pos_bound z (2 ^ it_bits T)) as Hlt.
    lia.
Qed.

Lemma check_from_wrapped T (v : list Z) :
  0 < it_bits T →
  ∀ fuel i, 0 ≤ i →
    (Z.to_nat (cast T (Z.of_nat (length v)) - i) < fuel)%nat →
    ∃ b, check_from T fuel i v = Ok b ∧
         (b = true ↔
          ∀ j, i ≤ j < cast T (Z.of_nat (length v)) → v !! Z.to_nat j = Some j).
Proof.
  intros Hb. destruct (cast_upper T (Z.of_nat (length v)) Hb ltac:(lia)) as [Hle Hmax].
  induction fuel as [|fuel IH]; intros i Hi Hfuel; [lia|].
  simpl. case_bool_decide as Hlt.
  - destruct (lookup_lt_is_Some_2 v (Z.to_nat i)) as [x Hx]; [lia|].
    rewrite (vec_get_lookup v i x) by (lia || done). simpl.
    case_bool_decide as Hix.
    + exists false. split; [done|]. split; [done|]. intros Hall.
      specialize (Hall i ltac:(lia)). rewrite Hx in Hall. by simplify_eq.
    + assert (i = x) as <- by (by destruct (decide (i = x))).
      rewrite (cast_small T (i + 1)) by lia.
      destruct (IH (i + 1)) as (b & Hrun & Hspec); [lia|lia|].
      exists b. split; [done|]. rewrite Hspec. split.
      * intros Hall j Hj. destruct (decide (j = i)) as [->|Hji]; [done|]. apply Hall. lia.
      * intros Hall j Hj. apply Hall. lia.
  - exists true. split; [done|]. split; [|done]. intros _ j Hj. lia.
Qed.

(** X10: called with a size that is not larger than the array, the validator
    reads the first [size] elements only, and the loop checks the first
    [T(size)] elements of the sorted copy: when [size] does not fit [T] the
    rest goes unchecked, and when [T(size)] is not positive every array is
    accepted. *)
Theorem validator_checks_wrapped_prefix (T : int_type) (size : Z) (a : list Z) :
  0 < it_bits T → 0 ≤ size ≤ Z.of_nat (length a) →
  ∃ b, call T size a
         = Ok (b, {| h_permute := a; permute := sort (take (Z.to_nat size) a) |}) ∧
       (b = true ↔
        ∀ j, 0 ≤ j < cast T size → sort (take (Z.to_nat size) a) !! Z.to_nat j = Some j) ∧
       (cast T size ≤ 0 → b = true).
Proof.
  intros Hb Hsize. unfold call, is_unique_permutation, vec_make, memcpy. simpl.
  rewrite bool_decide_eq_true_2 by lia. simpl.
  rewrite bool_decide_eq_true_2 by (rewrite length_replicate; lia). simpl.
  rewrite drop_ge by (rewrite length_replicate; lia). rewrite app_nil_r.
  assert (Z.of_nat (length (sort (take (Z.to_nat size) a))) = size) as Hls.
  { unfold sort. rewrite merge_sort_Permutation, length_take. lia. }
  destruct (check_from_wrapped T (sort (take (Z.to_nat size) a)) Hb
              (S (length (sort (take (Z.to_nat size) a)))) 0) as (b & Hrun & Hspec).
  - done.
  - destruct (cast_upper T (Z.of_nat (length (sort (take (Z.to_nat size) a)))) Hb); lia.
  - rewrite Hls in Hspec. simpl in Hrun. rewrite Hrun. simpl.
    exists b. split; [done|]. split; [done|].
    intros Hneg. apply Hspec. intros j Hj. lia.
Qed.

Lemma validator_checks_wrapped_prefix_witness :
  ∃ b, call uint8_t 258 (replicate 256 9 ++ [1; 0; 7])
         = Ok (b, {| h_permute := replicate 256 9 ++ [1; 0; 7];
                     permute := sort (take (Z.to_nat 258) (replicate 256 9 ++ [1; 0; 7])) |}) ∧
       (b = true ↔
        ∀ j, 0 ≤ j < cast uint8_t 258 →
          sort (take (Z.to_nat 258) (replicate 256 9 ++ [1; 0; 7])) !! Z.to_nat j = Some j) ∧
       (cast uint8_t 258 ≤ 0 → b = true).
Proof.
  apply (validator_checks_wrapped_prefix uint8_t 258 (replicate 256 9 ++ [1; 0; 7])).
  - simpl. lia.
  - vm_compute. split; discriminate.
Defined.

End ValidatorMore.

(** ** The oracle on arrays of another length, and what it touches *)

Section OracleMore.

Context {V : Type} (compute : EigenMat V → SimplicialLLT V).

Lemma for_count_app {St} (body : Z → St → result St) k1 k2 : ∀ lo s,
  for_count (k1 + k2) lo body s
  = (s' ← for_count k1 lo body s; for_count k2 (lo + Z.of_nat k1) body s').
Proof.
  induction k1 as [|k1 IH]; intros lo s; simpl.
  - by replace (lo + Z.of_nat 0) with lo by lia.
  - destruct (body lo s) as [t|]; simpl; [|done]. rewrite IH.
    by replace (lo + 1 + Z.of_nat k1) with (lo + Z.of_nat (S k1)) by lia.
Qed.

Lemma copy_loop_upto (hp : list Z) n k :
  0 ≤ k ≤ n → k ≤ Z.of_nat (length hp) →
  for_range 0 k copy_index {| h_permute := hp; indices := replicate (Z.to_nat n) 0 |}
  = Ok {| h_permute := hp;
          indices := take (Z.to_nat k) hp ++ replicate (Z.to_nat (n - k)) 0 |}.
Proof.
  intros Hk Hlen.
  set (I := λ (i : Z) (s : perm_state),
         h_permute s = hp ∧
         indices s = take (Z.to_nat i) hp ++ replicate (Z.to_nat (n - i)) 0).
  destruct (for_range_inv I copy_index 0 k {| h_permute := hp; indices := replicate (Z.to_nat n) 0 |})
    as ([hp' ix'] & Hrun & Hhp & Hix); [lia| | |].
  - split; [done|]. simpl. by rewrite Z.sub_0_r.
  - intros i [hp0 ix0] Hi [Hhp Hix]. simpl in Hhp, Hix. subst hp0.
    destruct (lookup_lt_is_Some_2 hp (Z.to_nat i)) as [x Hx]; [lia|].
    unfold copy_index. simpl. rewrite (vec_get_lookup hp i x) by (lia || done). simpl.
    assert (length (take (Z.to_nat i) hp) = Z.to_nat i) as Hlt by (rewrite length_take; lia).
    rewrite vec_set_Ok by (rewrite Hix, length_app, Hlt, length_replicate; lia). simpl.
    eexists. split; [done|]. split; [done|]. simpl. rewrite Hix.
    rewrite insert_app_r_alt by lia. rewrite Hlt, Nat.sub_diag.
    replace (Z.to_nat (n - i)) with (S (Z.to_nat (n - (i + 1)))) by lia. simpl.
    replace (Z.to_nat (i + 1)) with (S (Z.to_nat i)) by lia.
    rewrite (take_S_r hp (Z.to_nat i) x) by done. by rewrite <- app_assoc.
  - simpl in Hhp, Hix. rewrite Hrun. by subst hp' ix'.
Qed.

Lemma copy_loop_short (hp : list Z) n :
  Z.of_nat (length hp) < n →
  for_range 0 n copy_index {| h_permute := hp; indices := replicate (Z.to_nat n) 0 |}
  = Fault OutOfBounds.
Proof.
  intros Hlen.
  pose proof (copy_loop_upto hp n (Z.of_nat (length hp)) ltac:(lia) ltac:(lia)) as Hpre.
  unfold for_range in *.
  replace (Z.to_nat (n - 0)) with (Z.to_nat (Z.of_nat (length hp) - 0)
                                   + S (Z.to_nat (n - Z.of_nat (length hp) - 1)))%nat by lia.
  rewrite for_count_app, Hpre. simpl. unfold copy_index. simpl.
  unfold vec_get. rewrite bool_decide_eq_true_2 by lia.
  by rewrite (proj2 (lookup_ge_None hp _)) by lia.
Qed.

(** X11: an array whose length is not the order of the matrix.  With the
    assertion compiled in, the call stops at the assertion.  With it compiled
    out, a longer array is read up to the order of the matrix only, and a
    shorter one is read past its end. *)
Theorem oracle_length_mismatch (M : EigenMat V) (hp : list Z) (st : string) (w : world V) :
  Z.of_nat (length hp) ≠ e_rows M → 0 ≤ e_rows M →
  Oracle.count_nnz_fillin compute false M hp st w = Fault AssertFailed ∧
  (e_rows M < Z.of_nat (length hp) →
   Oracle.count_nnz_fillin compute true M hp st w
   = (x ← Oracle.count_nnz_fillin compute true M (take (Z.to_nat (e_rows M)) hp) st w;
      Ok (x.1.1, hp, x.2))) ∧
  (Z.of_nat (length hp) < e_rows M →
   Oracle.count_nnz_fillin compute true M hp st w = Fault OutOfBounds).
Proof.
  intros Hne Hn. split; [|split].
  - unfold Oracle.count_nnz_fillin. by rewrite bool_decide_eq_false_2.
  - intros Hlong. unfold Oracle.count_nnz_fillin, vec_make. simpl.
    rewrite bool_decide_eq_true_2 by done. simpl.
    rewrite !copy_loop by (rewrite ?length_take; lia). simpl.
    rewrite take_take, Nat.min_id.
    destruct (permute_symm_to_fullsymm M (take (Z.to_nat (e_rows M)) hp)) as [A|]; simpl; [|done].
    by case_bool_decide.
  - intros Hshort. unfold Oracle.count_nnz_fillin, vec_make. simpl.
    rewrite bool_decide_eq_true_2 by done. simpl.
    by rewrite copy_loop_short.
Qed.

(** X12: a call that returns has called the factorization exactly once and
    has written to no file but [st.txt].  When that file can be opened it
    then holds one line for every stored entry of the permuted matrix, at
    the position of the entry counted from one; in which order the lines
    come and how a value is printed is left open.  When it cannot be opened,
    no file has changed. *)
Theorem oracle_touches_one_file (ndebug : bool) (M : EigenMat V) (hp hp' : list Z)
    (st : string) (w w' : world V) (v : Z) :
  Oracle.count_nnz_fillin compute ndebug M hp st w = Ok (v, hp', w') →
  factorizations w' = S (factorizations w) ∧
  (∀ f, f ≠ st +:+ ".txt" → files w' !! f = files w !! f) ∧
  ∃ A, permute_symm_to_fullsymm M (take (Z.to_nat (e_rows M)) hp) = Ok A ∧
       (can_open w (st +:+ ".txt") = true →
        ∃ lines, files w' !! (st +:+ ".txt") = Some lines ∧
                 fst <$> lines ≡ₚ (λ q, (q.1 + 1, q.2 + 1)) <$> positions A) ∧
       (can_open w (st +:+ ".txt") = false → files w' = files w).
Proof.
  unfold Oracle.count_nnz_fillin, vec_make.
  destruct (negb ndebug && _); [done|].
  case_bool_decide as Hn; simpl; [|done].
  destruct (decide (e_rows M ≤ Z.of_nat (length hp))) as [Hlen|Hlen];
    [|by rewrite copy_loop_short by lia].
  rewrite copy_loop by lia. simpl.
  destruct (permute_symm_to_fullsymm M (take (Z.to_nat (e_rows M)) hp)) as [A|]; simpl; [|done].
  intros Hrun.
  assert (factorizations w' = S (factorizations w) ∧
          files w' = files (exportToPlainText A (st +:+ ".txt") w)) as [Hfact Hfiles].
  { case_bool_decide; injection Hrun as <- <- <-; simpl;
      unfold exportToPlainText; by destruct (can_open w (st +:+ ".txt")). }
  split; [done|]. rewrite Hfiles. unfold exportToPlainText. split.
  - intros f Hf. destruct (can_open w (st +:+ ".txt")); simpl; [|done].
    by rewrite lookup_insert_ne.
  - exists A. split; [done|]. split; intros Hopen; rewrite Hopen; simpl; [|done].
    eexists. split; [by rewrite lookup_insert_eq|].
    unfold positions. rewrite <- !list_fmap_compose.
    induction (e_entries A) as [|[[r c] x] l IH]; simpl; [done|]. by constructor.
Qed.

End OracleMore.

Lemma oracle_length_mismatch_witness :
  Oracle.count_nnz_fillin symbolic_llt false M3 [1; 0; 2; 5] "m" world_rw = Fault AssertFailed ∧
  (e_rows M3 < Z.of_nat (length [1; 0; 2; 5]) →
   Oracle.count_nnz_fillin symbolic_llt true M3 [1; 0; 2; 5] "m" world_rw
   = (x ← Oracle.count_nnz_fillin symbolic_llt true M3
            (take (Z.to_nat (e_rows M3)) [1; 0; 2; 5]) "m" world_rw;
      Ok (x.1.1, [1; 0; 2; 5], x.2))) ∧
  (Z.of_nat (length [1; 0; 2; 5]) < e_rows M3 →
   Oracle.count_nnz_fillin symbolic_llt true M3 [1; 0; 2; 5] "m" world_rw
   = Fault OutOfBounds).
Proof.
  apply (oracle_length_mismatch symbolic_llt M3 [1; 0; 2; 5] "m" world_rw).
  - simpl. lia.
  - simpl. lia.
Defined.

Lemma oracle_touches_one_file_witness :
  factorizations (factorized (exportToPlainText A3 "m.txt" world_rw))
    = S (factorizations world_rw) ∧
  (∀ f, f ≠ "m" +:+ ".txt" →
        files (factorized (exportToPlainText A3 "m.txt" world_rw)) !! f
        = files world_rw !! f) ∧
  ∃ A, permute_symm_to_fullsymm M3 (take (Z.to_nat (e_rows M3)) P3) = Ok A ∧
       (can_open world_rw ("m" +:+ ".txt") = true →
        ∃ lines,
          files (factorized (exportToPlainText A3 "m.txt" world_rw)) !! ("m" +:+ ".txt")
            = Some lines ∧
          fst <$> lines ≡ₚ (λ q, (q.1 + 1, q.2 + 1)) <$> positions A) ∧
       (can_open world_rw ("m" +:+ ".txt") = false →
        files (factorized (exportToPlainText A3 "m.txt" world_rw)) = files world_rw).
Proof.
  apply (oracle_touches_one_file symbolic_llt false M3 P3 P3 "m" world_rw
           (factorized (exportToPlainText A3 "m.txt" world_rw)) 9).
  vm_compute. reflexivity.
Defined.

(** ** The mesh context *)

Section UnpackProofs.

Import MeshContext.

Lemma unpack_edge_dir_eq edge_dir :
  0 ≤ edge_dir < 2 ^ 16 →
  unpack_edge_dir edge_dir = (edge_dir `div` 2, bool_decide (edge_dir `mod` 2 = 1)).
Proof.
  intros Hr. unfold unpack_edge_dir.
  rewrite Z.shiftr_div_pow2 by lia. change (2 ^ 1) with 2.
  rewrite Z.mod_small by (split; [apply Z.div_pos; lia|apply Z.div_lt_upper_bound; lia]).
  f_equal. change 1 with (Z.ones 1) at 1. rewrite Z.land_ones by lia. change (2 ^ 1) with 2.
  pose proof (Z.mod_pos_bound edge_dir 2 ltac:(lia)) as Hm.
  case_bool_decide as Hb.
  - by rewrite Hb.
  - by replace (edge_dir `mod` 2) with 0 by lia.
Qed.

Lemma pack_edge_dir_eq e (d : bool) :
  Z.lor (Z.shiftl e 1) (Z.b2z d) = 2 * e + Z.b2z d.
Proof.
  rewrite Z.shiftl_mul_pow2 by lia. change (2 ^ 1) with 2.
  destruct d; simpl.
  - assert (Z.land (e * 2) 1 = 0) as Hland.
    { change (Z.land (e * 2) 1) with (Z.land (e * 2) (Z.ones 1)).
      rewrite Z.land_ones by lia. apply Z.mod_mul. lia. }
    rewrite <- Z.lxor_lor, <- Z.add_nocarry_lxor by done. lia.
  - rewrite Z.lor_0_r. lia.
Qed.

(** X14: a packed edge is twice the edge plus the direction bit.  Unpacking
    a [uint16_t] gives an edge below [2 ^ 15] and the flag from which the
    packed value is put together again, and every such pair is unpacked from
    its packed value. *)
Theorem unpack_edge_dir_roundtrip (edge_dir : Z) :
  0 ≤ edge_dir < 2 ^ 16 →
  0 ≤ (unpack_edge_dir edge_dir).1 < 2 ^ 15 ∧
  Z.lor (Z.shiftl (unpack_edge_dir edge_dir).1 1) (Z.b2z (unpack_edge_dir edge_dir).2)
  = edge_dir ∧
  ∀ edge (dir : bool), 0 ≤ edge < 2 ^ 15 →
    Z.lor (Z.shiftl edge 1) (Z.b2z dir) = edge_dir → unpack_edge_dir edge_dir = (edge, dir).
Proof.
  intros Hr. rewrite unpack_edge_dir_eq by done. simpl.
  pose proof (Z.div_mod edge_dir 2 ltac:(lia)) as Hdm.
  pose proof (Z.mod_pos_bound edge_dir 2 ltac:(lia)) as Hm.
  split; [|split].
  - split; [apply Z.div_pos; lia|apply Z.div_lt_upper_bound; lia].
  - rewrite pack_edge_dir_eq. case_bool_decide; simpl; lia.
  - intros edge dir He. rewrite pack_edge_dir_eq. intros Hpack. f_equal.
    + destruct dir; simpl in Hpack; lia.
    + destruct dir; simpl in Hpack; case_bool_decide; (done || lia).
Qed.

Lemma unpack_edge_dir_roundtrip_witness :
  0 ≤ (unpack_edge_dir 65535).1 < 2 ^ 15 ∧
  Z.lor (Z.shiftl (unpack_edge_dir 65535).1 1) (Z.b2z (unpack_edge_dir 65535).2) = 65535 ∧
  ∀ edge (dir : bool), 0 ≤ edge < 2 ^ 15 →
    Z.lor (Z.shiftl edge 1) (Z.b2z dir) = 65535 → unpack_edge_dir 65535 = (edge, dir).
Proof. apply (unpack_edge_dir_roundtrip 65535). lia. Defined.

End UnpackProofs.

Section ContextProofs.

Import MeshContext.

Context {float PatchInfoPtr PatchScheduler : Type}.

Lemma init_Done (c : Context float PatchInfoPtr PatchScheduler) n cf vp ep fp dp sch d :
  7 ≤ room d →
  init c n cf vp ep fp dp sch d =
    Done ({| m_num_edges := Word (fresh (dom (blocks d))) 1;
             m_num_faces := Word (fresh (dom (blocks d))) 2;
             m_num_vertices := Word (fresh (dom (blocks d))) 0;
             m_num_patches := Word (fresh (dom (blocks d))) 3;
             m_max_num_vertices := Word (fresh (dom (blocks d))) 4;
             m_max_num_edges := Word (fresh (dom (blocks d))) 5;
             m_max_num_faces := Word (fresh (dom (blocks d))) 6;
             m_vertex_prefix := vp;
             m_edge_prefix := ep;
             m_face_prefix := fp;
             m_patches_info := dp;
             m_capacity_factor := cf;
             m_patch_scheduler := sch |},
          {| blocks := <[fresh (dom (blocks d)) := buffer_words n]> (blocks d);
             room := room d - 7 |}).
Proof.
  intros Hroom. unfold init, cudaMalloc. rewrite bool_decide_eq_true_2 by lia.
  generalize (fresh (dom (blocks d))). intros b.
  cbn [mbind cuda_bind ptr_add]. unfold cudaMemcpy. cbn [blocks room].
  repeat (rewrite lookup_insert_eq; cbn [length replicate Z.to_nat Pos.to_nat Pos.iter_op
            Nat.add insert list_insert Z.add Pos.add Pos.succ];
          rewrite bool_decide_eq_true_2 by (simpl; lia);
          cbn [mbind cuda_bind blocks room]; rewrite insert_insert_eq).
  done.
Qed.

Lemma init_inv (c c' : Context float PatchInfoPtr PatchScheduler) n cf vp ep fp dp sch d d' :
  init c n cf vp ep fp dp sch d = Done (c', d') → 7 ≤ room d.
Proof.
  unfold init, cudaMalloc. case_bool_decide; [lia|done].
Qed.

Lemma fresh_block d : blocks d !! fresh (dom (blocks d)) = None.
Proof. apply not_elem_of_dom, is_fresh. Qed.

Lemma release_after_init (c c' : Context float PatchInfoPtr PatchScheduler)
    n cf vp ep fp dp sch d d' :
  init c n cf vp ep fp dp sch d = Done (c', d') →
  release c' d' = Done d ∧
  blocks d' = <[fresh (dom (blocks d)) := buffer_words n]> (blocks d) ∧
  room d' = room d - 7 ∧
  [m_num_vertices c'; m_num_edges c'; m_num_faces c'; m_num_patches c';
   m_max_num_vertices c'; m_max_num_edges c'; m_max_num_faces c']
  = (λ k, Word (fresh (dom (blocks d))) k) <$> [0; 1; 2; 3; 4; 5; 6].
Proof.
  intros Hinit. pose proof (init_inv _ _ _ _ _ _ _ _ _ _ _ Hinit) as Hroom.
  rewrite init_Done in Hinit by done. injection Hinit as <- <-.
  split; [|done].
  unfold release, cudaFree. cbn [m_num_vertices blocks room].
  rewrite lookup_insert_eq, bool_decide_eq_true_2 by done.
  destruct d as [bl rm]. cbn [blocks room] in *. f_equal. f_equal.
  - rewrite delete_insert_eq, delete_id; [done|]. apply (fresh_block {| blocks := bl; room := rm |}).
  - simpl. lia.
Qed.

(** X15: with room for seven words, [init] returns.  The seven pointers are
    the seven words of one allocation that was not there before, a kernel
    reads each counter behind its pointer, and what was allocated before is
    as it was. *)
Theorem init_stores_the_counters (c : Context float PatchInfoPtr PatchScheduler)
    (n : counters) (cf : float) (vp ep fp : ptr) (dp : PatchInfoPtr)
    (sch : PatchScheduler) (d : device) :
  7 ≤ room d →
  ∃ c' d',
    init c n cf vp ep fp dp sch d = Done (c', d') ∧
    load d' (get_num_vertices c') = Some (num_vertices n) ∧
    load d' (get_num_edges c') = Some (num_edges n) ∧
    load d' (get_num_faces c') = Some (num_faces n) ∧
    load d' (m_num_patches c') = Some (num_patches n) ∧
    load d' (m_max_num_vertices c') = Some (max_num_vertices n) ∧
    load d' (m_max_num_edges c') = Some (max_num_edges n) ∧
    load d' (m_max_num_faces c') = Some (max_num_faces n) ∧
    room d' = room d - 7 ∧
    (∀ b blk, blocks d !! b = Some blk → blocks d' !! b = Some blk) ∧
    ∃ buffer, blocks d !! buffer = None ∧
              (∃ blk, blocks d' !! buffer = Some blk ∧ length blk = 7%nat) ∧
              [m_num_vertices c'; m_num_edges c'; m_num_faces c'; m_num_patches c';
               m_max_num_vertices c'; m_max_num_edges c'; m_max_num_faces c']
              = Word buffer <$> [0; 1; 2; 3; 4; 5; 6] ∧
              NoDup [m_num_vertices c'; m_num_edges c'; m_num_faces c'; m_num_patches c';
                     m_max_num_vertices c'; m_max_num_edges c'; m_max_num_faces c'].
Proof.
  intros Hroom. rewrite init_Done by done. eexists _, _. split; [done|].
  unfold get_num_vertices, get_num_edges, get_num_faces, load. cbn [m_num_vertices
    m_num_edges m_num_faces m_num_patches m_max_num_vertices m_max_num_edges
    m_max_num_faces blocks room].
  rewrite lookup_insert_eq. repeat (split; [done|]). split.
  - intros b blk Hb. rewrite lookup_insert_ne; [done|].
    intros <-. by rewrite fresh_block in Hb.
  - exists (fresh (dom (blocks d))). split; [apply fresh_block|].
    split; [eexists; split; [apply lookup_insert_eq|done]|]. split; [done|].
    change (NoDup (Word (fresh (dom (blocks d))) <$> [0; 1; 2; 3; 4; 5; 6])).
    apply NoDup_fmap_2; [by intros x y [= ->]|].
    refine (bool_decide_unpack _ _). vm_compute. exact I.
Qed.

(** X16: [release] after [init] gives back the whole buffer, since the
    pointer it frees is the start of the buffer: the device is as it was
    before [init].  The pointers of the context then dangle, and a second
    [release] is reported as an error. *)
Theorem release_undoes_init (c c' : Context float PatchInfoPtr PatchScheduler)
    (n : counters) (cf : float) (vp ep fp : ptr) (dp : PatchInfoPtr)
    (sch : PatchScheduler) (d d' : device) :
  init c n cf vp ep fp dp sch d = Done (c', d') →
  release c' d' = Done d ∧
  load d (get_num_vertices c') = None ∧
  load d (get_num_edges c') = None ∧
  load d (get_num_faces c') = None ∧
  release c' d = Failed cudaErrorInvalidValue.
Proof.
  intros Hinit.
  destruct (release_after_init _ _ _ _ _ _ _ _ _ _ _ Hinit) as (Hrel & _ & _ & Hptrs).
  injection Hptrs as Hv He Hf _ _ _ _.
  pose proof (fresh_block d) as Hfresh. split; [done|].
  unfold release, cudaFree, get_num_vertices, get_num_edges, get_num_faces, load.
  by rewrite Hv, He, Hf, Hfresh.
Qed.

(** X17: [init] does not free the buffer of an earlier [init].  After two
    calls and a [release], the device is as it was after the first call: the
    first buffer is still allocated, and no pointer of the context points
    into it. *)
Theorem init_twice_leaks (c c1 c2 : Context float PatchInfoPtr PatchScheduler)
    (n1 n2 : counters) (cf1 cf2 : float) (vp1 ep1 fp1 vp2 ep2 fp2 : ptr)
    (dp1 dp2 : PatchInfoPtr) (sch1 sch2 : PatchScheduler) (d d1 d2 : device) :
  init c n1 cf1 vp1 ep1 fp1 dp1 sch1 d = Done (c1, d1) →
  init c1 n2 cf2 vp2 ep2 fp2 dp2 sch2 d1 = Done (c2, d2) →
  release c2 d2 = Done d1 ∧
  room d1 = room d - 7 ∧
  load d1 (get_num_vertices c1) = Some (num_vertices n1) ∧
  ∀ k, ptr_add (m_num_vertices c1) k ∉
       [m_num_vertices c2; m_num_edges c2; m_num_faces c2; m_num_patches c2;
        m_max_num_vertices c2; m_max_num_edges c2; m_max_num_faces c2].
Proof.
  intros Hinit1 Hinit2.
  destruct (release_after_init _ _ _ _ _ _ _ _ _ _ _ Hinit1) as (_ & Hb1 & Hroom1 & Hptrs1).
  destruct (release_after_init _ _ _ _ _ _ _ _ _ _ _ Hinit2) as (Hrel & _ & _ & Hptrs2).
  injection Hptrs1 as Hv _ _ _ _ _ _.
  split; [done|]. split; [done|]. split.
  - unfold get_num_vertices, load. rewrite Hv, Hb1, lookup_insert_eq. done.
  - intros k. rewrite Hptrs2, Hv. simpl.
    assert (fresh (dom (blocks d)) ≠ fresh (dom (blocks d1))) as Hne.
    { intros Heq. pose proof (fresh_block d1) as Hfresh.
      rewrite <- Heq in Hfresh. by rewrite Hb1, lookup_insert_eq in Hfresh. }
    rewrite !not_elem_of_cons. repeat (split; [congruence|]). apply not_elem_of_nil.
Qed.

End ContextProofs.

Section ContextInstances.

Import MeshContext.

Lemma init_stores_the_counters_witness :
  ∃ c' d',
    init fresh_context cube tt nullptr nullptr nullptr tt tt empty_device = Done (c', d') ∧
    load d' (get_num_vertices c') = Some (num_vertices cube) ∧
    load d' (get_num_edges c') = Some (num_edges cube) ∧
    load d' (get_num_faces c') = Some (num_faces cube) ∧
    load d' (m_num_patches c') = Some (num_patches cube) ∧
    load d' (m_max_num_vertices c') = Some (max_num_vertices cube) ∧
    load d' (m_max_num_edges c') = Some (max_num_edges cube) ∧
    load d' (m_max_num_faces c') = Some (max_num_faces cube) ∧
    room d' = room empty_device - 7 ∧
    (∀ b blk, blocks empty_device !! b = Some blk → blocks d' !! b = Some blk) ∧
    ∃ buffer, blocks empty_device !! buffer = None ∧
              (∃ blk, blocks d' !! buffer = Some blk ∧ length blk = 7%nat) ∧
              [m_num_vertices c'; m_num_edges c'; m_num_faces c'; m_num_patches c';
               m_max_num_vertices c'; m_max_num_edges c'; m_max_num_faces c']
              = Word buffer <$> [0; 1; 2; 3; 4; 5; 6] ∧
              NoDup [m_num_vertices c'; m_num_edges c'; m_num_faces c'; m_num_patches c';
                     m_max_num_vertices c'; m_max_num_edges c'; m_max_num_faces c'].
Proof.
  apply (init_stores_the_counters fresh_context cube tt nullptr nullptr nullptr tt tt
           empty_device).
  simpl. lia.
Defined.

Lemma release_undoes_init_witness :
  release (context_at 0) device_once = Done empty_device ∧
  load empty_device (get_num_vertices (context_at 0)) = None ∧
  load empty_device (get_num_edges (context_at 0)) = None ∧
  load empty_device (get_num_faces (context_at 0)) = None ∧
  release (context_at 0) empty_device = Failed cudaErrorInvalidValue.
Proof.
  apply (release_undoes_init fresh_context (context_at 0) cube tt nullptr nullptr nullptr
           tt tt empty_device device_once).
  vm_compute. reflexivity.
Defined.

Lemma init_twice_leaks_witness :
  release (context_at 1) device_twice = Done device_once ∧
  room device_once = room empty_device - 7 ∧
  load device_once (get_num_vertices (context_at 0)) = Some (num_vertices cube) ∧
  ∀ k, ptr_add (m_num_vertices (context_at 0)) k ∉
       [m_num_vertices (context_at 1); m_num_edges (context_at 1);
        m_num_faces (context_at 1); m_num_patches (context_at 1);
        m_max_num_vertices (context_at 1); m_max_num_edges (context_at 1);
        m_max_num_faces (context_at 1)].
Proof.
  apply (init_twice_leaks fresh_context (context_at 0) (context_at 1) cube cube tt tt
           nullptr nullptr nullptr nullptr nullptr nullptr tt tt tt tt
           empty_device device_once device_twice).
  - vm_compute. reflexivity.
  - vm_compute. reflexivity.
Defined.

End ContextInstances.

(** * Counts beyond the range of [int]

    The counts are computed in [int].  The full matrix of order 46341 is the
    smallest whose count, the square of the order, does not fit. *)
















